(** * The adjusted Sharpe metric of [src/metric.py]

    A shallow embedding of [compute_adjusted_sharpe] and the properties of
    the functional specification that concern it.

    Numbers.  The pandas columns hold IEEE doubles; here a finite double is
    a real number of [R] and arithmetic is exact.  The only non-finite value
    the function inspects, the null/NaN of a prediction cell, is the [None]
    of an [option R].  Rounding, overflow and NaN propagation through
    arithmetic are outside this model. *)

From Stdlib Require Import String.
From Stdlib Require Import Reals Lra Lia List ZArith Bool.
Import ListNotations.

Local Open Scope R_scope.

(** ** Exceptions and results *)

(** The exceptions the function can end with: the four [raise ValueError(..)]
    statements, told apart by their message, and the [ZeroDivisionError] of
    the integer division [1 / n]. *)
Inductive exn : Type :=
| ValueError (msg : string)
| ZeroDivisionError.

Inductive result (A : Type) : Type :=
| Ok (a : A)
| Raise (e : exn).

Arguments Ok {A} a.
Arguments Raise {A} e.

Definition bind {A B : Type} (m : result A) (k : A -> result B) : result B :=
  match m with
  | Ok a => k a
  | Raise e => Raise e
  end.

Notation "x <- m ;; k" := (bind m (fun x => k))
  (at level 61, m at next level, right associativity).

(** The names the specification gives to the four [ValueError]s. *)
Definition MissingPredictionError : exn :=
  ValueError "Missing predictions for some rows after merge".
Definition InvalidPredictionTypeError : exn :=
  ValueError "Predictions must be numeric".
Definition OutOfBoundsError : exn :=
  ValueError "Predictions out of bounds [0,2]".
Definition StrategyStdZero : exn := ValueError "strategy std is zero".
Definition MarketStdZero : exn := ValueError "market std is zero".

(** Both zero-deviation failures are the specification's
    [ZeroVolatilityError]. *)
Definition ZeroVolatilityError (e : exn) : Prop :=
  e = StrategyStdZero \/ e = MarketStdZero.

(** ** Data frames *)

Definition ident := Z.

(** A row of [solution]: the columns the metric reads. *)
Record ActualRow : Type := mkActual {
  sol_id : ident;
  sol_forward_returns : R;
  sol_risk_free_rate : R
}.

(** A row of [submission].  A null prediction cell (NaN, None) is [None]. *)
Record PredictionRow : Type := mkPrediction {
  sub_id : ident;
  sub_prediction : option R
}.

(** [submission]: its rows and whether the dtype of its [prediction] column
    is a sub-dtype of [np.number].  The left merge keeps that property: the
    NaN it fills in turns an integer column into a float one and leaves an
    object column an object column. *)
Record Submission : Type := mkSubmission {
  prediction_numeric : bool;
  sub_rows : list PredictionRow
}.

(** A row of the merged frame [df]. *)
Record JoinedRow : Type := mkJoined {
  row_id : ident;
  forward_returns : R;
  risk_free_rate : R;
  prediction : option R
}.

(** A row of [df] once the null test has passed, with its [position]. *)
Record Period : Type := mkPeriod {
  fwd : R;
  rf : R;
  position : R
}.

(** ** [Series] reductions *)

Definition Series_sum (s : list R) : R := fold_right Rplus 0 s.

Definition Series_prod (s : list R) : R := fold_right Rmult 1 s.

(** [Series.mean()], on a series that is not empty. *)
Definition Series_mean (s : list R) : R := Series_sum s / INR (length s).

(** [Series.std(ddof=0)], on a series that is not empty: the square root of
    the mean squared deviation from the mean, with denominator [n]. *)
Definition Series_std (s : list R) : R :=
  let m := Series_mean s in
  sqrt (Series_sum (map (fun x => (x - m) ^ 2) s) / INR (length s)).

(** [Series.max()] and [Series.min()]: NaN, here [None], on an empty
    series. *)
Definition Series_max (s : list R) : option R :=
  match s with
  | [] => None
  | x :: t => Some (fold_left Rmax t x)
  end.

Definition Series_min (s : list R) : option R :=
  match s with
  | [] => None
  | x :: t => Some (fold_left Rmin t x)
  end.

(** A comparison with NaN is false. *)
Definition gt_b (m : option R) (bound : R) : bool :=
  match m with
  | Some x => if Rlt_dec bound x then true else false
  | None => false
  end.

Definition lt_b (m : option R) (bound : R) : bool :=
  match m with
  | Some x => if Rlt_dec x bound then true else false
  | None => false
  end.

(** ** Step 1: merge and validation (lines 54-67) *)

Definition join_row (a : ActualRow) (p : option R) : JoinedRow :=
  mkJoined (sol_id a) (sol_forward_returns a) (sol_risk_free_rate a) p.

Definition matching (a : ActualRow) (rows : list PredictionRow)
  : list PredictionRow :=
  filter (fun p => Z.eqb (sub_id p) (sol_id a)) rows.

(** [solution.merge(submission, on=row_id_col, how='left')]: the solution
    rows in their order, each once per submission row with the same
    identifier, and once with a null prediction when there is none. *)
Definition merge_left (solution : list ActualRow) (rows : list PredictionRow)
  : list JoinedRow :=
  flat_map
    (fun a =>
       match matching a rows with
       | [] => [join_row a None]
       | ms => map (fun p => join_row a (sub_prediction p)) ms
       end)
    solution.

(** [df['prediction'].isnull().any()] *)
Definition isnull_any (df : list JoinedRow) : bool :=
  existsb (fun r => match prediction r with None => true | Some _ => false end)
          df.

(** The rows of [df] with their position, defined when no prediction is
    null. *)
Fixpoint periods (df : list JoinedRow) : option (list Period) :=
  match df with
  | [] => Some []
  | r :: rest =>
      match prediction r, periods rest with
      | Some p, Some ps =>
          Some (mkPeriod (forward_returns r) (risk_free_rate r) p :: ps)
      | _, _ => None
      end
  end.

(** ** Step 2: strategy returns (lines 78-82) *)

Definition strategy_return (r : Period) : R :=
  rf r * (1 - position r) + position r * fwd r.

(** ** Steps 3 and 5: mean excess return (lines 89-102 and 126-131) *)

(** The same statements are written twice in the source, for the strategy
    and for the market.  [1 / n] is a division of Python integers and raises
    on [n = 0]. *)
Definition mean_excess (excess : list R) (n : nat) : result R :=
  let excess_cum := Series_prod (map (fun e => 1 + e) excess) in
  if Rle_dec excess_cum 0 then Ok (Series_mean excess)
  else
    match n with
    | O => Raise ZeroDivisionError
    | S _ => Ok (Rpower excess_cum (1 / INR n) - 1)
    end.

(** ** Steps 4 and 5: volatility (lines 108-120 and 133-134) *)

Definition trading_days_per_yr : R := 252.

Definition annualized_volatility (std : R) : R :=
  std * sqrt trading_days_per_yr * 100.0.

(** ** Steps 6 and 7: penalties and the capped score (lines 148-164) *)

Definition excess_vol_of (strategy_volatility market_volatility : R) : R :=
  Rmax 0 (strategy_volatility / market_volatility - 1.2).

Definition return_gap_of (market_mean_excess strategy_mean_excess : R) : R :=
  Rmax 0 ((market_mean_excess - strategy_mean_excess) * 100
          * trading_days_per_yr).

Definition vol_penalty_of (excess_vol : R) : R := 1 + excess_vol.

Definition return_penalty_of (return_gap : R) : R := 1 + return_gap ^ 2 / 100.

Definition score_cap : R := 1000000.

(** Lines 149, 155, 161 and 164, as a function of the Sharpe ratio and of
    the two quantities the penalties are made of. *)
Definition adjusted_sharpe_of (sharpe excess_vol return_gap : R) : R :=
  Rmin (sharpe / (vol_penalty_of excess_vol * return_penalty_of return_gap))
       score_cap.

(** ** The scoring function *)

(** The columns and series the function derives from [df]. *)
Definition strategy_returns (df : list Period) : list R :=
  map strategy_return df.

Definition strategy_excess (df : list Period) : list R :=
  map (fun r => strategy_return r - rf r) df.

Definition market_returns (df : list Period) : list R := map fwd df.

Definition market_excess (df : list Period) : list R :=
  map (fun r => fwd r - rf r) df.

(** Lines 78-164, on the rows of a merged frame that passed validation. *)
Definition score_periods (df : list Period) : result R :=
  let n := length df in
  strategy_mean_excess <- mean_excess (strategy_excess df) n ;;
  let strategy_std := Series_std (strategy_returns df) in
  if Req_dec_T strategy_std 0 then Raise StrategyStdZero
  else
    let sharpe :=
      strategy_mean_excess / strategy_std * sqrt trading_days_per_yr in
    let strategy_volatility := annualized_volatility strategy_std in
    market_mean_excess <- mean_excess (market_excess df) n ;;
    let market_std := Series_std (market_returns df) in
    let market_volatility := annualized_volatility market_std in
    if Req_dec_T market_volatility 0 then Raise MarketStdZero
    else
      let excess_vol := excess_vol_of strategy_volatility market_volatility in
      let return_gap := return_gap_of market_mean_excess strategy_mean_excess in
      Ok (adjusted_sharpe_of sharpe excess_vol return_gap).

(** Lines 57-164, on a merged frame.  The null test of line 57 is
    [periods df = None]; when it passes, the numeric positions are at
    hand for the rest of the function. *)
Definition score_joined (numeric : bool) (df : list JoinedRow) : result R :=
  match periods df with
  | None => Raise MissingPredictionError
  | Some ps =>
      if negb numeric then Raise InvalidPredictionTypeError
      else
        let predictions := map position ps in
        if gt_b (Series_max predictions) 2 || lt_b (Series_min predictions) 0
        then Raise OutOfBoundsError
        else score_periods ps
  end.

Definition compute_adjusted_sharpe
    (solution : list ActualRow) (submission : Submission) : result R :=
  score_joined (prediction_numeric submission)
               (merge_left solution (sub_rows submission)).

(** ** The specification's formulas *)

(** Sections 4.3 to 4.5 of the specification, in its words, on the rows of
    a validated joined set. *)
Module Spec.

(** RiskStatsComputer: [cum], then the arithmetic mean when [cum <= 0]
    and [cum^(1/n) - 1] otherwise. *)
Definition cum (excess : list R) : R :=
  Series_prod (map (fun e => 1 + e) excess).

Definition arithmetic_mean (excess : list R) : R :=
  Series_sum excess / INR (length excess).

Definition mean_excess_return (excess : list R) : R :=
  if Rle_dec (cum excess) 0 then arithmetic_mean excess
  else Rpower (cum excess) (1 / INR (length excess)) - 1.

Definition strategy_mean_excess (df : list Period) : R :=
  mean_excess_return (strategy_excess df).

Definition market_mean_excess (df : list Period) : R :=
  mean_excess_return (market_excess df).

Definition strategy_std (df : list Period) : R :=
  Series_std (strategy_returns df).

Definition market_std (df : list Period) : R :=
  Series_std (market_returns df).

Definition strategy_volatility (df : list Period) : R :=
  strategy_std df * sqrt 252 * 100.

Definition market_volatility (df : list Period) : R :=
  market_std df * sqrt 252 * 100.

Definition strategy_sharpe (df : list Period) : R :=
  strategy_mean_excess df / strategy_std df * sqrt 252.

(** The same ratio for the market's own returns. *)
Definition market_sharpe (df : list Period) : R :=
  market_mean_excess df / market_std df * sqrt 252.

(** PenaltyCalculator. *)
Definition excess_vol (df : list Period) : R :=
  Rmax 0 (strategy_volatility df / market_volatility df - 1.2).

Definition vol_penalty (df : list Period) : R := 1 + excess_vol df.

Definition return_gap (df : list Period) : R :=
  Rmax 0 ((market_mean_excess df - strategy_mean_excess df) * 100 * 252).

Definition return_penalty (df : list Period) : R :=
  1 + (return_gap df) ^ 2 / 100.

(** Aggregator. *)
Definition adjusted_sharpe (df : list Period) : R :=
  Rmin (strategy_sharpe df / (vol_penalty df * return_penalty df)) 1000000.

End Spec.

(** A series with at least one period whose values are all the same. *)
Definition constant_series (s : list R) : Prop :=
  exists c, In c s /\ forall x, In x s -> x = c.

(** The tests [strategy_std == 0] and [market_volatility == 0] as pandas
    decides them on a series: the deviation of a series without any value
    is NaN, and NaN equals nothing. *)
Definition zero_std (s : list R) : Prop :=
  s <> [] /\ Series_std s = 0.

Definition zero_volatility (s : list R) : Prop :=
  s <> [] /\ annualized_volatility (Series_std s) = 0.

(** The predictions of a validated joined set all lie in [[0, 2]]. *)
Definition within_bounds (df : list Period) : Prop :=
  Forall (fun r => 0 <= position r <= 2) df.

(** * Properties *)

(** ** The left merge *)

Section Merge.

Variable rows : list PredictionRow.

(** The rows of the merged frame that come from one solution row. *)
Definition joined_of (a : ActualRow) : list JoinedRow :=
  match matching a rows with
  | [] => [join_row a None]
  | ms => map (fun p => join_row a (sub_prediction p)) ms
  end.

Lemma merge_left_cons a solution :
  merge_left (a :: solution) rows = joined_of a ++ merge_left solution rows.
Proof. reflexivity. Qed.

Lemma joined_of_length a :
  length (joined_of a) = Nat.max 1 (length (matching a rows)).
Proof.
  unfold joined_of. destruct (matching a rows) as [|p ms]; [reflexivity|].
  rewrite length_map. simpl. reflexivity.
Qed.

Lemma merge_left_length_ge solution :
  (length solution <= length (merge_left solution rows))%nat.
Proof.
  induction solution as [|a solution IH]; [apply Nat.le_refl|].
  rewrite merge_left_cons, length_app, joined_of_length. simpl length. lia.
Qed.

Lemma merge_left_length_eq solution :
  length (merge_left solution rows) = length solution <->
  (forall a, In a solution -> (length (matching a rows) <= 1)%nat).
Proof.
  induction solution as [|a solution IH].
  - simpl. split; [intros _ a []|reflexivity].
  - rewrite merge_left_cons, length_app, joined_of_length. simpl length.
    pose proof (merge_left_length_ge solution) as Hge.
    split.
    + intros H b [<-|Hb]; [lia|]. apply IH; [lia|exact Hb].
    + intros H.
      assert (length (merge_left solution rows) = length solution) as ->
          by (apply IH; intros b Hb; apply H; right; exact Hb).
      specialize (H a (or_introl eq_refl)). lia.
Qed.

Lemma in_joined_of a r :
  In r (joined_of a) <->
  (matching a rows = [] /\ r = join_row a None) \/
  (exists p, In p rows /\ sub_id p = sol_id a /\
             r = join_row a (sub_prediction p)).
Proof.
  unfold joined_of.
  destruct (matching a rows) as [|p0 ms] eqn:E.
  - simpl. split.
    + intros [<-|[]]. left. split; reflexivity.
    + intros [[_ ->]|(p & Hp & Hid & _)]; [left; reflexivity|].
      exfalso.
      assert (In p (matching a rows)) as Hin
          by (apply filter_In; split; [exact Hp|apply Z.eqb_eq; exact Hid]).
      rewrite E in Hin. exact Hin.
  - rewrite <- E. rewrite in_map_iff. split.
    + intros (p & <- & Hp). right. unfold matching in Hp.
      apply filter_In in Hp. destruct Hp as [Hp Hid].
      exists p. split; [exact Hp|]. split; [apply Z.eqb_eq; exact Hid|].
      reflexivity.
    + intros [[Hnil _]|(p & Hp & Hid & ->)].
      * rewrite Hnil in E. discriminate E.
      * exists p. split; [reflexivity|].
        apply filter_In. split; [exact Hp|apply Z.eqb_eq; exact Hid].
Qed.

Lemma in_merge_left solution r :
  In r (merge_left solution rows) <->
  exists a, In a solution /\ In r (joined_of a).
Proof. unfold merge_left. rewrite in_flat_map. reflexivity. Qed.

Lemma matching_nil_iff a :
  matching a rows = [] <-> (forall p, In p rows -> sub_id p <> sol_id a).
Proof.
  unfold matching. split.
  - intros E p Hp Hid.
    assert (In p (filter (fun q => Z.eqb (sub_id q) (sol_id a)) rows)) as Hin
        by (apply filter_In; split; [exact Hp|apply Z.eqb_eq; exact Hid]).
    rewrite E in Hin. exact Hin.
  - intros H. destruct (filter _ rows) as [|p ms] eqn:E; [reflexivity|].
    exfalso.
    assert (In p (filter (fun q => Z.eqb (sub_id q) (sol_id a)) rows)) as Hin
        by (rewrite E; left; reflexivity).
    apply filter_In in Hin. destruct Hin as [Hp Hid].
    apply (H p Hp). apply Z.eqb_eq. exact Hid.
Qed.

End Merge.

(** ** The null test *)

Lemma periods_none_iff df :
  periods df = None <-> exists r, In r df /\ prediction r = None.
Proof.
  induction df as [|r rest IH]; simpl.
  - split; [discriminate|intros (r & [] & _)].
  - destruct (prediction r) as [p|] eqn:Ep.
    + destruct (periods rest) as [ps|].
      * split; [discriminate|].
        intros (r' & [<-|Hin] & Hnone); [congruence|].
        exfalso. destruct IH as [_ IH].
        discriminate IH. exists r'. split; assumption.
      * split; [|reflexivity]. intros _.
        destruct IH as [IH _]. destruct (IH eq_refl) as (r' & Hin & Hnone).
        exists r'. split; [right; exact Hin|exact Hnone].
    + split; [|reflexivity]. intros _. exists r. split; [left; reflexivity|exact Ep].
Qed.

Lemma periods_isnull_any df : periods df = None <-> isnull_any df = true.
Proof.
  rewrite periods_none_iff. unfold isnull_any. rewrite existsb_exists.
  split; intros (r & Hin & H); exists r; (split; [exact Hin|]).
  - rewrite H. reflexivity.
  - destruct (prediction r); [discriminate H|reflexivity].
Qed.

Lemma periods_length df ps : periods df = Some ps -> length ps = length df.
Proof.
  revert ps. induction df as [|r rest IH]; simpl; intros ps H.
  - injection H as <-. reflexivity.
  - destruct (prediction r); [|discriminate H].
    destruct (periods rest) as [ps'|]; [|discriminate H].
    injection H as <-. simpl. f_equal. apply IH. reflexivity.
Qed.

(** ** The bounds test *)

Lemma Rmax_gt b x y : b < Rmax x y <-> b < x \/ b < y.
Proof. unfold Rmax. destruct (Rle_dec x y); lra. Qed.

Lemma Rmin_lt_iff b x y : Rmin x y < b <-> x < b \/ y < b.
Proof. unfold Rmin. destruct (Rle_dec x y); lra. Qed.

Lemma fold_left_Rmax_gt b t : forall x,
  b < fold_left Rmax t x <-> b < x \/ exists y, In y t /\ b < y.
Proof.
  induction t as [|z t IH]; intros x; simpl.
  - split; [intros H; left; exact H|intros [H|(y & [] & _)]; exact H].
  - rewrite IH, Rmax_gt. split.
    + intros [[H|H]|(y & Hy & H)].
      * left; exact H.
      * right. exists z. split; [left; reflexivity|exact H].
      * right. exists y. split; [right; exact Hy|exact H].
    + intros [H|(y & [<-|Hy] & H)].
      * left; left; exact H.
      * left; right; exact H.
      * right. exists y. split; assumption.
Qed.

Lemma fold_left_Rmin_lt b t : forall x,
  fold_left Rmin t x < b <-> x < b \/ exists y, In y t /\ y < b.
Proof.
  induction t as [|z t IH]; intros x; simpl.
  - split; [intros H; left; exact H|intros [H|(y & [] & _)]; exact H].
  - rewrite IH, Rmin_lt_iff. split.
    + intros [[H|H]|(y & Hy & H)].
      * left; exact H.
      * right. exists z. split; [left; reflexivity|exact H].
      * right. exists y. split; [right; exact Hy|exact H].
    + intros [H|(y & [<-|Hy] & H)].
      * left; left; exact H.
      * left; right; exact H.
      * right. exists y. split; assumption.
Qed.

Lemma max_gt_iff s b :
  gt_b (Series_max s) b = true <-> exists x, In x s /\ b < x.
Proof.
  destruct s as [|x t]; simpl.
  - split; [discriminate|intros (x & [] & _)].
  - destruct (Rlt_dec b (fold_left Rmax t x)) as [H|H].
    + split; [intros _|reflexivity].
      apply fold_left_Rmax_gt in H. destruct H as [H|(y & Hy & H)].
      * exists x. split; [left; reflexivity|exact H].
      * exists y. split; [right; exact Hy|exact H].
    + split; [discriminate|]. intros (y & Hy & Hlt). exfalso. apply H.
      apply fold_left_Rmax_gt. destruct Hy as [<-|Hy].
      * left; exact Hlt.
      * right. exists y. split; assumption.
Qed.

Lemma min_lt_iff s b :
  lt_b (Series_min s) b = true <-> exists x, In x s /\ x < b.
Proof.
  destruct s as [|x t]; simpl.
  - split; [discriminate|intros (x & [] & _)].
  - destruct (Rlt_dec (fold_left Rmin t x) b) as [H|H].
    + split; [intros _|reflexivity].
      apply fold_left_Rmin_lt in H. destruct H as [H|(y & Hy & H)].
      * exists x. split; [left; reflexivity|exact H].
      * exists y. split; [right; exact Hy|exact H].
    + split; [discriminate|]. intros (y & Hy & Hlt). exfalso. apply H.
      apply fold_left_Rmin_lt. destruct Hy as [<-|Hy].
      * left; exact Hlt.
      * right. exists y. split; assumption.
Qed.

(** The test of line 66 fires exactly when a position is outside
    [[0, 2]]. *)
Lemma bounds_test_iff (df : list Period) :
  gt_b (Series_max (map position df)) 2
  || lt_b (Series_min (map position df)) 0 = true <->
  exists r, In r df /\ (position r < 0 \/ 2 < position r).
Proof.
  rewrite orb_true_iff, max_gt_iff, min_lt_iff. split.
  - intros [(x & Hx & H)|(x & Hx & H)];
      apply in_map_iff in Hx; destruct Hx as (r & <- & Hr);
      exists r; (split; [exact Hr|]); [right|left]; exact H.
  - intros (r & Hr & [H|H]).
    + right. exists (position r). split; [apply in_map; exact Hr|exact H].
    + left. exists (position r). split; [apply in_map; exact Hr|exact H].
Qed.

Lemma bounds_test_false_iff (df : list Period) :
  gt_b (Series_max (map position df)) 2
  || lt_b (Series_min (map position df)) 0 = false <->
  within_bounds df.
Proof.
  unfold within_bounds. rewrite Forall_forall. split.
  - intros Hf r Hr.
    destruct (Rlt_dec (position r) 0) as [H|H];
      [|destruct (Rlt_dec 2 (position r)) as [H'|H']; [|lra]];
      exfalso;
      assert (gt_b (Series_max (map position df)) 2
              || lt_b (Series_min (map position df)) 0 = true) as Ht
        by (apply bounds_test_iff; exists r; split; [exact Hr|lra]);
      rewrite Hf in Ht; discriminate Ht.
  - intros H.
    destruct (gt_b _ 2 || lt_b _ 0) eqn:E; [|reflexivity].
    apply bounds_test_iff in E. destruct E as (r & Hr & Hout).
    specialize (H r Hr). lra.
Qed.

(** ** Mean and standard deviation *)

Lemma INR_length_pos {A : Type} (s : list A) : s <> [] -> 0 < INR (length s).
Proof.
  intros H. destruct s as [|x t]; [contradiction|].
  apply lt_0_INR. simpl. lia.
Qed.

Lemma Series_sum_all_eq (s : list R) (c : R) :
  (forall x, In x s -> x = c) -> Series_sum s = INR (length s) * c.
Proof.
  induction s as [|x t IH]; intros H.
  - simpl. lra.
  - change (Series_sum (x :: t)) with (x + Series_sum t).
    change (length (x :: t)) with (S (length t)). rewrite S_INR.
    rewrite IH by (intros y Hy; apply H; right; exact Hy).
    rewrite (H x (or_introl eq_refl)). lra.
Qed.

Lemma Series_mean_all_eq (s : list R) (c : R) :
  s <> [] -> (forall x, In x s -> x = c) -> Series_mean s = c.
Proof.
  intros Hne H. unfold Series_mean. rewrite (Series_sum_all_eq s c H).
  pose proof (INR_length_pos s Hne). field. lra.
Qed.

Lemma sum_squares_nonneg (m : R) (s : list R) :
  0 <= Series_sum (map (fun x => (x - m) ^ 2) s).
Proof.
  induction s as [|x t IH]; [simpl; lra|].
  change (Series_sum (map (fun x => (x - m) ^ 2) (x :: t)))
    with ((x - m) ^ 2 + Series_sum (map (fun x => (x - m) ^ 2) t)).
  pose proof (pow2_ge_0 (x - m)) as H. lra.
Qed.

Lemma sum_squares_zero (m : R) (s : list R) :
  Series_sum (map (fun x => (x - m) ^ 2) s) = 0 ->
  forall x, In x s -> x = m.
Proof.
  induction s as [|y t IH]; intros H x Hx; [destruct Hx|].
  change (Series_sum (map (fun x => (x - m) ^ 2) (y :: t)))
    with ((y - m) ^ 2 + Series_sum (map (fun x => (x - m) ^ 2) t)) in H.
  pose proof (pow2_ge_0 (y - m)) as Hy.
  pose proof (sum_squares_nonneg m t) as Ht.
  destruct Hx as [<-|Hx].
  - assert ((y - m) ^ 2 = 0) as H0 by lra.
    simpl in H0. assert ((y - m) * (y - m) = 0) as H1 by lra.
    apply Rmult_integral in H1. lra.
  - apply IH; [lra|exact Hx].
Qed.

(** The population deviation of a series with at least one value is zero
    exactly when the series is constant. *)
Lemma Series_std_zero_iff (s : list R) :
  s <> [] -> (Series_std s = 0 <-> constant_series s).
Proof.
  intros Hne. pose proof (INR_length_pos s Hne) as Hn.
  unfold Series_std, constant_series. cbv zeta.
  set (m := Series_mean s).
  pose proof (sum_squares_nonneg m s) as Hsq.
  split.
  - intros H. apply sqrt_eq_0 in H.
    + assert (Series_sum (map (fun x => (x - m) ^ 2) s) = 0) as H0.
      { unfold Rdiv in H. apply Rmult_integral in H. destruct H as [H|H];
          [exact H|]. exfalso. apply (Rinv_neq_0_compat (INR (length s)));
          [lra|exact H]. }
      pose proof (sum_squares_zero m s H0) as Hall.
      destruct s as [|x t]; [contradiction|].
      exists x. split; [left; reflexivity|].
      intros y Hy. rewrite (Hall y Hy). symmetry. apply Hall. left; reflexivity.
    + unfold Rdiv. apply Rmult_le_pos; [exact Hsq|].
      left. apply Rinv_0_lt_compat. exact Hn.
  - intros (c & _ & Hc).
    assert (m = c) as Hm by (apply Series_mean_all_eq; assumption).
    assert (Series_sum (map (fun x => (x - m) ^ 2) s) = 0) as H0.
    { rewrite (Series_sum_all_eq _ 0).
      - lra.
      - intros y Hy. apply in_map_iff in Hy. destruct Hy as (x & <- & Hx).
        rewrite (Hc x Hx), Hm. simpl. lra. }
    rewrite H0. unfold Rdiv. rewrite Rmult_0_l. apply sqrt_0.
Qed.

Lemma sqrt_252_pos : 0 < sqrt 252.
Proof. apply sqrt_lt_R0. lra. Qed.

Lemma annualized_volatility_eq (std : R) :
  annualized_volatility std = std * sqrt 252 * 100.
Proof. unfold annualized_volatility, trading_days_per_yr. lra. Qed.

Lemma annualized_volatility_zero_iff (std : R) :
  annualized_volatility std = 0 <-> std = 0.
Proof.
  unfold annualized_volatility, trading_days_per_yr.
  pose proof sqrt_252_pos as Hs. split; intros H; [|rewrite H; lra].
  assert (std * (sqrt 252 * 100.0) = 0) as H' by lra.
  apply Rmult_integral in H'. destruct H' as [H'|H']; [exact H'|]. lra.
Qed.

(** ** The mean excess return *)

Lemma mean_excess_ok (excess : list R) (n : nat) :
  n = length excess -> n <> O ->
  mean_excess excess n = Ok (Spec.mean_excess_return excess).
Proof.
  intros -> Hn. unfold mean_excess, Spec.mean_excess_return, Spec.cum,
    Spec.arithmetic_mean, Series_mean. cbv zeta.
  destruct (Rle_dec _ 0); [reflexivity|].
  destruct (length excess); [contradiction|reflexivity].
Qed.

Lemma Series_prod_nil : Series_prod [] = 1.
Proof. reflexivity. Qed.

Lemma mean_excess_empty : mean_excess [] 0 = Raise ZeroDivisionError.
Proof.
  unfold mean_excess. cbv zeta. simpl map. rewrite Series_prod_nil.
  destruct (Rle_dec 1 0); [lra|reflexivity].
Qed.

(** ** The outcomes of lines 78-164 *)

Lemma score_periods_empty : score_periods [] = Raise ZeroDivisionError.
Proof.
  unfold score_periods. cbv zeta. simpl length.
  change (strategy_excess []) with (@nil R).
  rewrite mean_excess_empty. reflexivity.
Qed.

Lemma score_periods_nonempty (df : list Period) :
  df <> [] ->
  score_periods df =
    if Req_dec_T (Spec.strategy_std df) 0 then Raise StrategyStdZero
    else if Req_dec_T (Spec.market_std df) 0 then Raise MarketStdZero
         else Ok (Spec.adjusted_sharpe df).
Proof.
  intros Hne.
  assert (length df <> O) as Hn by (destruct df; [contradiction|discriminate]).
  unfold score_periods. cbv zeta.
  rewrite (mean_excess_ok (strategy_excess df))
    by (unfold strategy_excess; rewrite ?length_map; auto).
  rewrite (mean_excess_ok (market_excess df))
    by (unfold market_excess; rewrite ?length_map; auto).
  cbn [bind]. fold (Spec.strategy_std df). fold (Spec.market_std df).
  destruct (Req_dec_T (Spec.strategy_std df) 0) as [Hs|Hs]; [reflexivity|].
  destruct (Req_dec_T (annualized_volatility (Spec.market_std df)) 0)
    as [Hm|Hm];
    destruct (Req_dec_T (Spec.market_std df) 0) as [Hm'|Hm'].
  - reflexivity.
  - exfalso. apply Hm'. apply annualized_volatility_zero_iff. exact Hm.
  - exfalso. apply Hm. apply annualized_volatility_zero_iff. exact Hm'.
  - f_equal. unfold Spec.adjusted_sharpe, adjusted_sharpe_of, score_cap,
      Spec.vol_penalty, Spec.return_penalty, vol_penalty_of, return_penalty_of,
      Spec.excess_vol, Spec.return_gap, excess_vol_of, return_gap_of,
      Spec.strategy_sharpe, Spec.strategy_volatility, Spec.market_volatility,
      Spec.strategy_mean_excess, Spec.market_mean_excess, trading_days_per_yr.
    rewrite !annualized_volatility_eq. reflexivity.
Qed.

Lemma score_periods_outcome (df : list Period) :
  score_periods df = Raise ZeroDivisionError \/
  score_periods df = Raise StrategyStdZero \/
  score_periods df = Raise MarketStdZero \/
  score_periods df = Ok (Spec.adjusted_sharpe df).
Proof.
  destruct df as [|r df].
  - left. apply score_periods_empty.
  - right. rewrite score_periods_nonempty by discriminate.
    destruct (Req_dec_T _ 0); [left; reflexivity|right].
    destruct (Req_dec_T _ 0); [left; reflexivity|right; reflexivity].
Qed.

(** What [score_joined] does once the null test has passed. *)
Lemma score_joined_some numeric df ps :
  periods df = Some ps ->
  score_joined numeric df =
    if negb numeric then Raise InvalidPredictionTypeError
    else if gt_b (Series_max (map position ps)) 2
            || lt_b (Series_min (map position ps)) 0
         then Raise OutOfBoundsError
         else score_periods ps.
Proof. intros H. unfold score_joined. rewrite H. reflexivity. Qed.

Lemma score_joined_valid df ps :
  periods df = Some ps -> within_bounds ps ->
  score_joined true df = score_periods ps.
Proof.
  intros H Hb. rewrite (score_joined_some true df ps H). simpl negb. cbv iota.
  apply bounds_test_false_iff in Hb. rewrite Hb. reflexivity.
Qed.

(** * The claims *)

(** ** Strategy returns *)

(** C4.  In every row of a validated joined set the strategy return is
    [risk_free_rate * (1 - prediction) + prediction * forward_return]; a
    row with prediction 0 returns the risk-free rate and a row with
    prediction 1 returns the forward return. *)
Theorem strategy_return_blend (df : list Period) :
  strategy_returns df =
    map (fun r => rf r * (1 - position r) + position r * fwd r) df /\
  (forall r, In r df -> position r = 0 -> strategy_return r = rf r) /\
  (forall r, In r df -> position r = 1 -> strategy_return r = fwd r).
Proof.
  split; [reflexivity|].
  split; intros r _ H; unfold strategy_return; rewrite H; ring.
Qed.

Lemma strategy_return_blend_witness :
  strategy_return (mkPeriod 0.01 0.0001 0) = 0.0001 /\
  strategy_return (mkPeriod 0.01 0.0001 1) = 0.01.
Proof.
  pose proof (strategy_return_blend
                [mkPeriod 0.01 0.0001 0; mkPeriod 0.01 0.0001 1])
    as (_ & H0 & H1).
  split.
  - apply (H0 (mkPeriod 0.01 0.0001 0)); [left; reflexivity|reflexivity].
  - apply (H1 (mkPeriod 0.01 0.0001 1));
      [right; left; reflexivity|reflexivity].
Defined.

(** ** Mean excess return *)

(** The quantities of the specification's RiskStatsComputer, written out
    on the list of excess returns: the product over all periods of
    [1 + excess_i], and the sum of the excess returns. *)
Fixpoint growth (excess : list R) : R :=
  match excess with
  | [] => 1
  | e :: rest => (1 + e) * growth rest
  end.

Fixpoint total (excess : list R) : R :=
  match excess with
  | [] => 0
  | e :: rest => e + total rest
  end.

Lemma Series_prod_growth (excess : list R) :
  Series_prod (map (fun e => 1 + e) excess) = growth excess.
Proof.
  induction excess as [|e rest IH]; [reflexivity|].
  simpl growth. rewrite <- IH. reflexivity.
Qed.

Lemma Series_sum_total (excess : list R) : Series_sum excess = total excess.
Proof.
  induction excess as [|e rest IH]; [reflexivity|].
  simpl total. rewrite <- IH. reflexivity.
Qed.

Lemma map_not_nil {A B : Type} (f : A -> B) (l : list A) :
  l <> [] -> map f l <> [].
Proof. destruct l; [contradiction|discriminate]. Qed.

(** What [mean_excess] returns on a series of [n >= 1] values. *)
Lemma mean_excess_value (excess : list R) :
  excess <> [] ->
  (growth excess <= 0 ->
   mean_excess excess (length excess)
   = Ok (total excess / INR (length excess))) /\
  (0 < growth excess ->
   mean_excess excess (length excess)
   = Ok (Rpower (growth excess) (1 / INR (length excess)) - 1)).
Proof.
  intros Hne. unfold mean_excess. cbv zeta.
  rewrite Series_prod_growth. unfold Series_mean. rewrite Series_sum_total.
  split; intros H; destruct (Rle_dec (growth excess) 0) as [Hle|Hgt];
    try lra; try reflexivity.
  destruct excess; [contradiction|reflexivity].
Qed.

(** C5, as the code has it.  On a joined set of [n >= 1] periods, for the
    strategy (excess [risk_free_rate * (1 - position) + position *
    forward_return - risk_free_rate]) and for the market (excess
    [forward_return - risk_free_rate]), the mean excess return is the sum of
    the excess returns divided by [n] when the product of the [1 + excess_i]
    is [<= 0], and that product to the power [1/n], minus 1, when it is
    positive; the two cases exclude each other and one of them applies. *)
Theorem mean_excess_by_cases (df : list Period) :
  df <> [] ->
  let n := length df in
  let strategy :=
    map (fun r => rf r * (1 - position r) + position r * fwd r - rf r) df in
  let market := map (fun r => fwd r - rf r) df in
  ((growth strategy <= 0 ->
    mean_excess (strategy_excess df) n = Ok (total strategy / INR n)) /\
   (0 < growth strategy ->
    mean_excess (strategy_excess df) n
    = Ok (Rpower (growth strategy) (1 / INR n) - 1))) /\
  ((growth market <= 0 ->
    mean_excess (market_excess df) n = Ok (total market / INR n)) /\
   (0 < growth market ->
    mean_excess (market_excess df) n
    = Ok (Rpower (growth market) (1 / INR n) - 1))) /\
  (forall excess, ~ (growth excess <= 0 /\ 0 < growth excess)) /\
  (forall excess, growth excess <= 0 \/ 0 < growth excess).
Proof.
  intros Hne n strategy market.
  assert (strategy_excess df = strategy) as Hs by reflexivity.
  assert (market_excess df = market) as Hm by reflexivity.
  assert (length strategy = n) as Hls by (unfold strategy; apply length_map).
  assert (length market = n) as Hlm by (unfold market; apply length_map).
  rewrite Hs, Hm. split; [|split; [|split]].
  - rewrite <- Hls. apply mean_excess_value.
    unfold strategy. apply map_not_nil. exact Hne.
  - rewrite <- Hlm. apply mean_excess_value.
    unfold market. apply map_not_nil. exact Hne.
  - intros excess [H1 H2]. lra.
  - intros excess. destruct (Rle_dec (growth excess) 0); [left|right]; lra.
Qed.

Lemma mean_excess_by_cases_witness :
  mean_excess (market_excess [mkPeriod (-2) 0 1; mkPeriod 1 0 1]) 2
    = Ok (total [-2 - 0; 1 - 0] / INR 2) /\
  mean_excess (strategy_excess [mkPeriod 0.21 0 1; mkPeriod 0.21 0 1]) 2
    = Ok (Rpower (growth [0 * (1 - 1) + 1 * 0.21 - 0;
                          0 * (1 - 1) + 1 * 0.21 - 0]) (1 / INR 2) - 1).
Proof.
  split.
  - apply (mean_excess_by_cases [mkPeriod (-2) 0 1; mkPeriod 1 0 1]).
    + discriminate.
    + simpl. lra.
  - apply (mean_excess_by_cases [mkPeriod 0.21 0 1; mkPeriod 0.21 0 1]).
    + discriminate.
    + simpl. lra.
Defined.

(** C5 fails as stated: on a joined set without periods the product is 1,
    so the second case is the one that applies, and neither series gets a
    mean excess return: the division [1 / n] raises. *)
Lemma mean_excess_of_no_period :
  0 < growth (map (fun r => fwd r - rf r) []) /\
  mean_excess (strategy_excess []) (length (@nil Period))
    = Raise ZeroDivisionError /\
  mean_excess (market_excess []) (length (@nil Period))
    = Raise ZeroDivisionError /\
  (forall v, mean_excess (market_excess []) (length (@nil Period)) <> Ok v).
Proof.
  assert (mean_excess [] 0 = Raise ZeroDivisionError) as H
      by apply mean_excess_empty.
  split; [simpl; lra|].
  split; [exact H|]. split; [exact H|].
  intros v. change (mean_excess [] 0 <> Ok v). rewrite H. discriminate.
Qed.

(** ** The left join *)

(** C9, as the code has it.  When no identifier of the solution occurs in
    more than one submission row, the joined set has exactly as many rows
    as the solution. *)
Theorem merge_left_size (solution : list ActualRow)
    (rows : list PredictionRow) :
  (forall a, In a solution -> (length (matching a rows) <= 1)%nat) ->
  length (merge_left solution rows) = length solution.
Proof. intros H. apply merge_left_length_eq. exact H. Qed.

Lemma merge_left_size_witness :
  length (merge_left [mkActual 1%Z 0.01 0.0001; mkActual 2%Z (-0.02) 0.0001]
                     [mkPrediction 2%Z (Some 1)]) = 2%nat.
Proof.
  apply (merge_left_size
           [mkActual 1%Z 0.01 0.0001; mkActual 2%Z (-0.02) 0.0001]
           [mkPrediction 2%Z (Some 1)]).
  intros a [<-|[<-|[]]]; simpl; lia.
Defined.

(** C9 fails as stated: a submission with two rows for the identifier of
    one solution row is joined into two rows. *)
Lemma merge_left_duplicate_identifier :
  length (merge_left [mkActual 1%Z 0.01 0.0001]
                     [mkPrediction 1%Z (Some 1); mkPrediction 1%Z (Some 0.5)])
  <> length [mkActual 1%Z 0.01 0.0001].
Proof. simpl. discriminate. Qed.

(** ** Missing predictions *)

Lemma score_periods_not_missing (df : list Period) :
  score_periods df <> Raise MissingPredictionError.
Proof.
  destruct (score_periods_outcome df) as [H|[H|[H|H]]]; rewrite H;
    discriminate.
Qed.

Lemma score_periods_not_out_of_bounds (df : list Period) :
  score_periods df <> Raise OutOfBoundsError.
Proof.
  destruct (score_periods_outcome df) as [H|[H|[H|H]]]; rewrite H;
    discriminate.
Qed.

Lemma score_joined_missing_iff numeric df :
  score_joined numeric df = Raise MissingPredictionError <->
  exists r, In r df /\ prediction r = None.
Proof.
  rewrite <- periods_none_iff. split.
  - intros H. destruct (periods df) as [ps|] eqn:E; [|reflexivity].
    exfalso. rewrite (score_joined_some numeric df ps E) in H.
    destruct (negb numeric); [discriminate H|].
    destruct (gt_b _ 2 || lt_b _ 0); [discriminate H|].
    exact (score_periods_not_missing ps H).
  - intros E. unfold score_joined. rewrite E. reflexivity.
Qed.

(** The joined rows without a prediction: the solution rows that no
    submission row matches, and those matched by a submission row whose
    prediction is null. *)
Lemma merge_left_null_iff solution rows :
  (exists r, In r (merge_left solution rows) /\ prediction r = None) <->
  exists a, In a solution /\
    ((forall p, In p rows -> sub_id p <> sol_id a) \/
     (exists p, In p rows /\ sub_id p = sol_id a /\ sub_prediction p = None)).
Proof.
  split.
  - intros (r & Hr & Hnull). apply in_merge_left in Hr.
    destruct Hr as (a & Ha & Hr). exists a. split; [exact Ha|].
    apply in_joined_of in Hr. destruct Hr as [[Hnil _]|(p & Hp & Hid & ->)].
    + left. apply matching_nil_iff. exact Hnil.
    + right. exists p. split; [exact Hp|]. split; [exact Hid|exact Hnull].
  - intros (a & Ha & [Hno|(p & Hp & Hid & Hnull)]).
    + exists (join_row a None). split; [|reflexivity].
      apply in_merge_left. exists a. split; [exact Ha|].
      apply in_joined_of. left. split; [|reflexivity].
      apply matching_nil_iff. exact Hno.
    + exists (join_row a (sub_prediction p)). split; [|exact Hnull].
      apply in_merge_left. exists a. split; [exact Ha|].
      apply in_joined_of. right. exists p.
      split; [exact Hp|]. split; [exact Hid|reflexivity].
Qed.

(** C8, as the code has it.  The score fails with MissingPredictionError
    exactly when some joined row lacks a prediction: some solution row has
    no submission row with its identifier, or has one whose prediction is
    null.  No score is returned then. *)
Theorem missing_prediction_iff (solution : list ActualRow)
    (submission : Submission) :
  (compute_adjusted_sharpe solution submission = Raise MissingPredictionError
   <->
   exists r, In r (merge_left solution (sub_rows submission)) /\
             prediction r = None) /\
  (compute_adjusted_sharpe solution submission = Raise MissingPredictionError
   <->
   exists a, In a solution /\
     ((forall p, In p (sub_rows submission) -> sub_id p <> sol_id a) \/
      (exists p, In p (sub_rows submission) /\ sub_id p = sol_id a /\
                 sub_prediction p = None))).
Proof.
  unfold compute_adjusted_sharpe.
  rewrite <- merge_left_null_iff, score_joined_missing_iff.
  split; reflexivity.
Qed.

Lemma missing_prediction_iff_witness :
  compute_adjusted_sharpe
    [mkActual 1%Z 0.01 0.0001; mkActual 2%Z (-0.02) 0.0001]
    (mkSubmission true [mkPrediction 1%Z (Some 1)])
  = Raise MissingPredictionError.
Proof.
  apply (proj2 (missing_prediction_iff
                  [mkActual 1%Z 0.01 0.0001; mkActual 2%Z (-0.02) 0.0001]
                  (mkSubmission true [mkPrediction 1%Z (Some 1)]))).
  exists (mkActual 2%Z (-0.02) 0.0001). split; [right; left; reflexivity|].
  left. intros p [<-|[]]. simpl. discriminate.
Defined.

(** C8 fails as stated: every identifier of the solution has a matching
    submission row, and the score still fails with MissingPredictionError,
    because the matching row holds a null prediction. *)
Lemma missing_prediction_with_every_identifier_matched :
  let solution := [mkActual 1%Z 0.01 0.0001] in
  let submission := mkSubmission true [mkPrediction 1%Z None] in
  (forall a, In a solution ->
     exists p, In p (sub_rows submission) /\ sub_id p = sol_id a) /\
  compute_adjusted_sharpe solution submission = Raise MissingPredictionError.
Proof.
  cbv zeta. split.
  - intros a [<-|[]]. exists (mkPrediction 1%Z None).
    split; [left; reflexivity|reflexivity].
  - reflexivity.
Qed.

(** C10.  A submission row that matches a solution row and holds a null
    prediction makes the score fail with MissingPredictionError, whatever
    the dtype of the prediction column and the other prediction values
    are: that error is not the type error nor the bounds error. *)
Theorem null_prediction_is_missing (solution : list ActualRow)
    (submission : Submission) (a : ActualRow) (p : PredictionRow) :
  In a solution -> In p (sub_rows submission) ->
  sub_id p = sol_id a -> sub_prediction p = None ->
  compute_adjusted_sharpe solution submission = Raise MissingPredictionError /\
  compute_adjusted_sharpe solution submission
    <> Raise InvalidPredictionTypeError /\
  compute_adjusted_sharpe solution submission <> Raise OutOfBoundsError.
Proof.
  intros Ha Hp Hid Hnull.
  assert (compute_adjusted_sharpe solution submission
          = Raise MissingPredictionError) as H.
  { unfold compute_adjusted_sharpe. apply score_joined_missing_iff.
    apply merge_left_null_iff. exists a. split; [exact Ha|].
    right. exists p. split; [exact Hp|]. split; [exact Hid|exact Hnull]. }
  rewrite H. split; [reflexivity|]. split; discriminate.
Qed.

Lemma null_prediction_is_missing_witness :
  compute_adjusted_sharpe
    [mkActual 1%Z 0.01 0.0001; mkActual 2%Z (-0.02) 0.0001]
    (mkSubmission false [mkPrediction 1%Z (Some 2.5); mkPrediction 2%Z None])
  = Raise MissingPredictionError.
Proof.
  apply (null_prediction_is_missing
           [mkActual 1%Z 0.01 0.0001; mkActual 2%Z (-0.02) 0.0001]
           (mkSubmission false
              [mkPrediction 1%Z (Some 2.5); mkPrediction 2%Z None])
           (mkActual 2%Z (-0.02) 0.0001) (mkPrediction 2%Z None)).
  - right; left; reflexivity.
  - right; left; reflexivity.
  - reflexivity.
  - reflexivity.
Defined.

(** ** Bounds *)

(** C7.  On a joined set whose predictions are all present and numeric,
    the score fails with OutOfBoundsError exactly when some prediction is
    below 0 or above 2; predictions within [[0, 2]], the ends included, do
    not raise it, and a prediction of 2.5 or of -0.1 does. *)
Theorem out_of_bounds_iff (solution : list ActualRow)
    (submission : Submission) (ps : list Period) :
  prediction_numeric submission = true ->
  periods (merge_left solution (sub_rows submission)) = Some ps ->
  (compute_adjusted_sharpe solution submission = Raise OutOfBoundsError <->
   exists r, In r ps /\ (position r < 0 \/ 2 < position r)) /\
  ((forall r, In r ps -> position r = 0 \/ position r = 2) ->
   compute_adjusted_sharpe solution submission <> Raise OutOfBoundsError) /\
  ((exists r, In r ps /\ (position r = 2.5 \/ position r = -0.1)) ->
   compute_adjusted_sharpe solution submission = Raise OutOfBoundsError).
Proof.
  intros Hnum Hps.
  assert (compute_adjusted_sharpe solution submission = Raise OutOfBoundsError
          <-> exists r, In r ps /\ (position r < 0 \/ 2 < position r)) as Hiff.
  { unfold compute_adjusted_sharpe.
    rewrite (score_joined_some _ _ ps Hps), Hnum. simpl negb. cbv iota.
    rewrite <- bounds_test_iff.
    destruct (gt_b _ 2 || lt_b _ 0).
    - split; reflexivity.
    - split; [|discriminate].
      intros H. exfalso. exact (score_periods_not_out_of_bounds ps H). }
  split; [exact Hiff|]. split.
  - intros Hall H. apply Hiff in H. destruct H as (r & Hr & Hout).
    destruct (Hall r Hr) as [E|E]; rewrite E in Hout; lra.
  - intros (r & Hr & E). apply Hiff. exists r. split; [exact Hr|].
    destruct E as [E|E]; rewrite E; lra.
Qed.

Lemma out_of_bounds_iff_witness :
  compute_adjusted_sharpe
    [mkActual 1%Z 0.01 0.0001; mkActual 2%Z (-0.02) 0.0001]
    (mkSubmission true [mkPrediction 1%Z (Some 2); mkPrediction 2%Z (Some 2.5)])
  = Raise OutOfBoundsError.
Proof.
  apply (out_of_bounds_iff
           [mkActual 1%Z 0.01 0.0001; mkActual 2%Z (-0.02) 0.0001]
           (mkSubmission true
              [mkPrediction 1%Z (Some 2); mkPrediction 2%Z (Some 2.5)])
           [mkPeriod 0.01 0.0001 2; mkPeriod (-0.02) 0.0001 2.5]).
  - reflexivity.
  - reflexivity.
  - exists (mkPeriod (-0.02) 0.0001 2.5). split; [right; left; reflexivity|].
    left. reflexivity.
Defined.

(** ** Zero volatility *)

Lemma constant_series_nonempty (s : list R) : constant_series s -> s <> [].
Proof. intros (c & Hc & _) ->. exact Hc. Qed.

Lemma map_nonempty {A B : Type} (f : A -> B) (l : list A) :
  l <> [] -> map f l <> [].
Proof. destruct l; [contradiction|discriminate]. Qed.

Lemma merge_left_nonempty solution rows df :
  solution <> [] -> periods (merge_left solution rows) = Some df -> df <> [].
Proof.
  intros Hne Hps ->. apply periods_length in Hps.
  pose proof (merge_left_length_ge rows solution) as Hge.
  rewrite <- Hps in Hge.
  destruct solution; [contradiction|]. simpl in Hge. lia.
Qed.

(** *** The scoring function over the deviation the runtime computes *)

(** [Series.std(ddof=0)] is computed by pandas in binary64; what it returns
    on a series is a number that need not be the exact deviation
    [Series_std].  The section takes that function as it comes and repeats
    lines 57-164 with it. *)
Section ComputedDeviation.

Variable std : list R -> R.

Definition score_periods_with (df : list Period) : result R :=
  let n := length df in
  strategy_mean_excess <- mean_excess (strategy_excess df) n ;;
  let strategy_std := std (strategy_returns df) in
  if Req_dec_T strategy_std 0 then Raise StrategyStdZero
  else
    let sharpe :=
      strategy_mean_excess / strategy_std * sqrt trading_days_per_yr in
    let strategy_volatility := annualized_volatility strategy_std in
    market_mean_excess <- mean_excess (market_excess df) n ;;
    let market_std := std (market_returns df) in
    let market_volatility := annualized_volatility market_std in
    if Req_dec_T market_volatility 0 then Raise MarketStdZero
    else
      let excess_vol := excess_vol_of strategy_volatility market_volatility in
      let return_gap := return_gap_of market_mean_excess strategy_mean_excess in
      Ok (adjusted_sharpe_of sharpe excess_vol return_gap).

Definition score_joined_with (numeric : bool) (df : list JoinedRow)
  : result R :=
  match periods df with
  | None => Raise MissingPredictionError
  | Some ps =>
      if negb numeric then Raise InvalidPredictionTypeError
      else
        let predictions := map position ps in
        if gt_b (Series_max predictions) 2 || lt_b (Series_min predictions) 0
        then Raise OutOfBoundsError
        else score_periods_with ps
  end.

Definition compute_adjusted_sharpe_with
    (solution : list ActualRow) (submission : Submission) : result R :=
  score_joined_with (prediction_numeric submission)
                    (merge_left solution (sub_rows submission)).

(** The score of lines 117-164 in terms of the computed deviations. *)
Definition adjusted_sharpe_with (df : list Period) : R :=
  adjusted_sharpe_of
    (Spec.strategy_mean_excess df / std (strategy_returns df)
     * sqrt trading_days_per_yr)
    (excess_vol_of (annualized_volatility (std (strategy_returns df)))
                   (annualized_volatility (std (market_returns df))))
    (return_gap_of (Spec.market_mean_excess df)
                   (Spec.strategy_mean_excess df)).


Lemma score_periods_with_nonempty (df : list Period) :
  df <> [] ->
  score_periods_with df =
    if Req_dec_T (std (strategy_returns df)) 0 then Raise StrategyStdZero
    else if Req_dec_T (annualized_volatility (std (market_returns df))) 0
         then Raise MarketStdZero
         else Ok (adjusted_sharpe_with df).
Proof.
  intros Hne.
  assert (length df <> O) as Hn by (destruct df; [contradiction|discriminate]).
  unfold score_periods_with. cbv zeta.
  rewrite (mean_excess_ok (strategy_excess df))
    by (unfold strategy_excess; rewrite ?length_map; auto).
  rewrite (mean_excess_ok (market_excess df))
    by (unfold market_excess; rewrite ?length_map; auto).
  cbn [bind]. reflexivity.
Qed.

Lemma score_joined_with_some numeric df ps :
  periods df = Some ps ->
  score_joined_with numeric df =
    if negb numeric then Raise InvalidPredictionTypeError
    else if gt_b (Series_max (map position ps)) 2
            || lt_b (Series_min (map position ps)) 0
         then Raise OutOfBoundsError
         else score_periods_with ps.
Proof. intros H. unfold score_joined_with. rewrite H. reflexivity. Qed.

Lemma score_joined_with_valid df ps :
  periods df = Some ps -> within_bounds ps ->
  score_joined_with true df = score_periods_with ps.
Proof.
  intros H Hb. rewrite (score_joined_with_some true df ps H).
  simpl negb. cbv iota.
  apply bounds_test_false_iff in Hb. rewrite Hb. reflexivity.
Qed.

End ComputedDeviation.

(** With the exact deviation this is the function modelled above. *)
Lemma compute_adjusted_sharpe_with_exact solution submission :
  compute_adjusted_sharpe_with Series_std solution submission
  = compute_adjusted_sharpe solution submission.
Proof. reflexivity. Qed.



(** *** Lines 78-164 in binary64 *)

From Stdlib Require PrimFloat.

(** The same lines on IEEE doubles, as the runtime evaluates them on a
    series of fewer than eight values, which NumPy adds up and multiplies
    from left to right.  The power [**] has no binary64 primitive here and
    is a parameter. *)
Module Float64.

Import PrimFloat.
#[local] Set Warnings "-inexact-float".
Local Open Scope float_scope.










Section Power.

Variable pow : float -> float -> float.



End Power.





End Float64.


(** ** The capped score *)

Lemma adjusted_sharpe_le_cap (df : list Period) :
  Spec.adjusted_sharpe df <= 1000000.
Proof. unfold Spec.adjusted_sharpe. apply Rmin_r. Qed.

(** C1, as the code has it.  Every score the function returns is at most
    1,000,000; and on a solution with at least one row, inputs that pass the
    validation and the two zero-volatility tests get the score
    [min(strategy_sharpe / (vol_penalty * return_penalty), 1000000)]. *)
Theorem capped_score (solution : list ActualRow) (submission : Submission) :
  (forall v, compute_adjusted_sharpe solution submission = Ok v ->
             v <= 1000000) /\
  (forall df,
     solution <> [] ->
     prediction_numeric submission = true ->
     periods (merge_left solution (sub_rows submission)) = Some df ->
     within_bounds df ->
     ~ zero_std (strategy_returns df) ->
     ~ zero_volatility (market_returns df) ->
     compute_adjusted_sharpe solution submission =
       Ok (Rmin (Spec.strategy_sharpe df
                 / (Spec.vol_penalty df * Spec.return_penalty df))
                1000000)).
Proof.
  split.
  - intros v H. unfold compute_adjusted_sharpe, score_joined in H.
    destruct (periods _) as [df|]; [|discriminate H].
    destruct (negb _); [discriminate H|].
    destruct (gt_b _ 2 || lt_b _ 0); [discriminate H|].
    destruct (score_periods_outcome df) as [E|[E|[E|E]]];
      rewrite E in H; try discriminate H.
    injection H as <-. apply adjusted_sharpe_le_cap.
  - intros df Hsol Hnum Hps Hb Hs Hm.
    assert (df <> []) as Hne
        by (apply (merge_left_nonempty solution (sub_rows submission));
            assumption).
    unfold compute_adjusted_sharpe. rewrite Hnum.
    rewrite (score_joined_valid _ df Hps Hb).
    rewrite (score_periods_nonempty df Hne).
    destruct (Req_dec_T (Spec.strategy_std df) 0) as [E|_].
    { exfalso. apply Hs. split; [apply map_nonempty; exact Hne|exact E]. }
    destruct (Req_dec_T (Spec.market_std df) 0) as [E|_]; [|reflexivity].
    exfalso. apply Hm. split; [apply map_nonempty; exact Hne|].
    apply annualized_volatility_zero_iff. exact E.
Qed.

(** The frame of two periods used below: fully invested, forward returns
    1% and -2%. *)
Definition two_periods : list Period :=
  [mkPeriod 0.01 0 1; mkPeriod (-0.02) 0 1].

Lemma Series_std_two (x y : R) : Series_std [x; y] = Rabs (x - y) / 2.
Proof.
  unfold Series_std, Series_mean, Series_sum. cbv zeta. simpl.
  replace (((x - (x + (y + 0)) / (1 + 1)) * ((x - (x + (y + 0)) / (1 + 1)) * 1)
            + ((y - (x + (y + 0)) / (1 + 1))
               * ((y - (x + (y + 0)) / (1 + 1)) * 1) + 0)) / (1 + 1))
    with (Rsqr ((x - y) / 2)) by (unfold Rsqr; field).
  rewrite sqrt_Rsqr_abs. unfold Rdiv. rewrite Rabs_mult.
  rewrite (Rabs_pos_eq (/ 2)) by lra. reflexivity.
Qed.

Lemma capped_score_witness :
  compute_adjusted_sharpe
    [mkActual 1%Z 0.01 0; mkActual 2%Z (-0.02) 0]
    (mkSubmission true [mkPrediction 1%Z (Some 1); mkPrediction 2%Z (Some 1)])
  = Ok (Rmin (Spec.strategy_sharpe two_periods
              / (Spec.vol_penalty two_periods
                 * Spec.return_penalty two_periods))
             1000000).
Proof.
  apply (capped_score
           [mkActual 1%Z 0.01 0; mkActual 2%Z (-0.02) 0]
           (mkSubmission true
              [mkPrediction 1%Z (Some 1); mkPrediction 2%Z (Some 1)])).
  - discriminate.
  - reflexivity.
  - reflexivity.
  - repeat constructor; simpl; lra.
  - intros [_ H]. revert H.
    unfold two_periods, strategy_returns, strategy_return.
    cbn [map fwd rf position]. rewrite Series_std_two.
    unfold Rabs. destruct (Rcase_abs _); intros H; lra.
  - intros [_ H]. apply (proj1 (annualized_volatility_zero_iff _)) in H.
    revert H.
    unfold two_periods, market_returns.
    cbn [map fwd rf position]. rewrite Series_std_two.
    unfold Rabs. destruct (Rcase_abs _); intros H; lra.
Defined.

(** C1 fails as stated: on a solution without rows nothing is missing,
    non-numeric or out of bounds and neither zero-volatility test fires,
    yet no score is returned: the division [1 / n] raises. *)
Lemma empty_solution_returns_no_score :
  let solution := @nil ActualRow in
  let submission := mkSubmission true [mkPrediction 1%Z (Some 1)] in
  let df := @nil Period in
  prediction_numeric submission = true /\
  periods (merge_left solution (sub_rows submission)) = Some df /\
  within_bounds df /\
  ~ zero_std (strategy_returns df) /\
  ~ zero_volatility (market_returns df) /\
  compute_adjusted_sharpe solution submission = Raise ZeroDivisionError /\
  (forall e, ZeroVolatilityError e -> ZeroDivisionError <> e) /\
  (forall v, compute_adjusted_sharpe solution submission <> Ok v).
Proof.
  cbv zeta.
  assert (compute_adjusted_sharpe
            [] (mkSubmission true [mkPrediction 1%Z (Some 1)])
          = Raise ZeroDivisionError) as Hrun.
  { unfold compute_adjusted_sharpe. simpl merge_left.
    simpl prediction_numeric.
    rewrite (score_joined_valid [] [] eq_refl (Forall_nil _)).
    apply score_periods_empty. }
  split; [reflexivity|]. split; [reflexivity|].
  split; [apply Forall_nil|].
  split; [intros [H _]; apply H; reflexivity|].
  split; [intros [H _]; apply H; reflexivity|].
  split; [exact Hrun|].
  split; [intros e [-> | ->]; discriminate|].
  intros v. rewrite Hrun. discriminate.
Qed.

(** ** Monotonicity in the penalties *)

Lemma return_penalty_pos (return_gap : R) : 1 <= return_penalty_of return_gap.
Proof.
  unfold return_penalty_of. pose proof (pow2_ge_0 return_gap). lra.
Qed.

Lemma return_penalty_increasing (g1 g2 : R) :
  0 <= g1 < g2 -> return_penalty_of g1 < return_penalty_of g2.
Proof. intros H. unfold return_penalty_of. simpl. nra. Qed.

Lemma ratio_decreasing (sharpe d1 d2 : R) :
  0 < sharpe -> 0 < d1 < d2 -> sharpe / d2 < sharpe / d1.
Proof.
  intros Hs [H1 H2]. unfold Rdiv. apply Rmult_lt_compat_l; [exact Hs|].
  apply Rinv_lt_contravar; [nra|exact H2].
Qed.

Lemma capped_decreasing (a1 a2 : R) :
  a2 < a1 -> Rmin a2 score_cap < score_cap ->
  Rmin a2 score_cap < Rmin a1 score_cap.
Proof.
  intros Hlt Hcap. unfold Rmin in *.
  destruct (Rle_dec a2 score_cap); destruct (Rle_dec a1 score_cap); lra.
Qed.

(** C2, as the code has it.  For a fixed Sharpe ratio that is positive,
    the score strictly decreases when the return gap strictly increases at
    a fixed volatility penalty, and when the excess volatility strictly
    increases at a fixed return penalty, as long as the score reached is
    below the cap of 1,000,000. *)
Theorem penalties_decrease_positive_sharpe (sharpe : R) :
  0 < sharpe ->
  (forall excess_vol g1 g2,
     0 <= excess_vol -> 0 <= g1 < g2 ->
     adjusted_sharpe_of sharpe excess_vol g2 < score_cap ->
     adjusted_sharpe_of sharpe excess_vol g2
       < adjusted_sharpe_of sharpe excess_vol g1) /\
  (forall return_gap v1 v2,
     0 <= v1 < v2 ->
     adjusted_sharpe_of sharpe v2 return_gap < score_cap ->
     adjusted_sharpe_of sharpe v2 return_gap
       < adjusted_sharpe_of sharpe v1 return_gap).
Proof.
  intros Hs. split.
  - intros ev g1 g2 Hev Hg Hcap. unfold adjusted_sharpe_of in *.
    apply capped_decreasing; [|exact Hcap].
    apply ratio_decreasing; [exact Hs|].
    pose proof (return_penalty_pos g1) as H1.
    pose proof (return_penalty_increasing g1 g2 Hg) as H2.
    unfold vol_penalty_of. split; nra.
  - intros g v1 v2 Hv Hcap. unfold adjusted_sharpe_of in *.
    apply capped_decreasing; [|exact Hcap].
    apply ratio_decreasing; [exact Hs|].
    pose proof (return_penalty_pos g) as H1.
    unfold vol_penalty_of. split; nra.
Qed.

Lemma adjusted_sharpe_of_unpenalized (sharpe : R) :
  adjusted_sharpe_of sharpe 0 0 = Rmin sharpe score_cap.
Proof.
  unfold adjusted_sharpe_of, vol_penalty_of, return_penalty_of.
  f_equal. simpl. field.
Qed.

Lemma penalties_decrease_positive_sharpe_witness :
  adjusted_sharpe_of 1 0 10 < adjusted_sharpe_of 1 0 0.
Proof.
  apply (penalties_decrease_positive_sharpe 1).
  - lra.
  - lra.
  - lra.
  - unfold adjusted_sharpe_of, score_cap.
    apply Rle_lt_trans with (1 / (vol_penalty_of 0 * return_penalty_of 10));
      [apply Rmin_l|].
    unfold vol_penalty_of, return_penalty_of. simpl. lra.
Defined.

(** C2 fails as stated.  With a negative Sharpe ratio a larger return gap,
    or a larger excess volatility, raises the score; and a score at the cap
    stays at the cap. *)
Lemma penalties_raise_negative_sharpe :
  adjusted_sharpe_of (-1) 0 0 < adjusted_sharpe_of (-1) 0 10 /\
  adjusted_sharpe_of (-1) 0 0 < adjusted_sharpe_of (-1) 1 0 /\
  adjusted_sharpe_of 4000000 0 10 = adjusted_sharpe_of 4000000 0 0.
Proof.
  unfold adjusted_sharpe_of, vol_penalty_of, return_penalty_of, score_cap.
  replace (-1 / ((1 + 0) * (1 + 0 ^ 2 / 100))) with (-1) by (simpl; field).
  replace (-1 / ((1 + 0) * (1 + 10 ^ 2 / 100))) with (-1 / 2)
    by (simpl; field).
  replace (-1 / ((1 + 1) * (1 + 0 ^ 2 / 100))) with (-1 / 2)
    by (simpl; field).
  replace (4000000 / ((1 + 0) * (1 + 10 ^ 2 / 100))) with 2000000
    by (simpl; field).
  replace (4000000 / ((1 + 0) * (1 + 0 ^ 2 / 100))) with 4000000
    by (simpl; field).
  unfold Rmin.
  repeat match goal with |- context [Rle_dec ?a ?b] =>
    destruct (Rle_dec a b) end; lra.
Qed.

(** ** Fully invested strategies *)

(** A series that takes two different values. *)
Definition varies (s : list R) : Prop :=
  exists x y, In x s /\ In y s /\ x <> y.

Lemma varies_not_constant (s : list R) : varies s -> ~ constant_series s.
Proof.
  intros (x & y & Hx & Hy & Hneq) (c & _ & Hc).
  apply Hneq. rewrite (Hc x Hx), (Hc y Hy). reflexivity.
Qed.

Lemma varies_nonempty (s : list R) : varies s -> s <> [].
Proof. intros (x & _ & Hx & _) ->. exact Hx. Qed.

Section FullyInvested.

Variable df : list Period.
Hypothesis invested : forall r, In r df -> position r = 1.
Hypothesis moves : varies (market_returns df).

Lemma invested_returns : strategy_returns df = market_returns df.
Proof.
  unfold strategy_returns, market_returns. apply map_ext_in.
  intros r Hr. unfold strategy_return. rewrite (invested r Hr). ring.
Qed.

Lemma invested_excess : strategy_excess df = market_excess df.
Proof.
  unfold strategy_excess, market_excess. apply map_ext_in.
  intros r Hr. unfold strategy_return. rewrite (invested r Hr). ring.
Qed.

Lemma invested_within_bounds : within_bounds df.
Proof.
  apply Forall_forall. intros r Hr. rewrite (invested r Hr). lra.
Qed.

Lemma invested_nonempty : df <> [].
Proof.
  intros E. apply (varies_nonempty _ moves). rewrite E. reflexivity.
Qed.

Lemma invested_market_std : Spec.market_std df <> 0.
Proof.
  unfold Spec.market_std. intros H.
  apply (varies_not_constant _ moves).
  apply Series_std_zero_iff; [exact (varies_nonempty _ moves)|exact H].
Qed.

Lemma invested_vol_penalty : Spec.vol_penalty df = 1.
Proof.
  unfold Spec.vol_penalty, Spec.excess_vol, Spec.strategy_volatility,
    Spec.market_volatility, Spec.strategy_std.
  rewrite invested_returns. fold (Spec.market_std df).
  pose proof invested_market_std as Hm. pose proof sqrt_252_pos as Hs.
  replace (Spec.market_std df * sqrt 252 * 100
           / (Spec.market_std df * sqrt 252 * 100)) with 1
    by (field; split; lra).
  unfold Rmax. destruct (Rle_dec 0 (1 - 1.2)); lra.
Qed.

Lemma invested_return_penalty : Spec.return_penalty df = 1.
Proof.
  unfold Spec.return_penalty, Spec.return_gap, Spec.strategy_mean_excess,
    Spec.market_mean_excess.
  rewrite invested_excess.
  replace ((Spec.mean_excess_return (market_excess df)
            - Spec.mean_excess_return (market_excess df)) * 100 * 252)
    with 0 by ring.
  unfold Rmax. destruct (Rle_dec 0 0); simpl; lra.
Qed.

Lemma invested_sharpe : Spec.strategy_sharpe df = Spec.market_sharpe df.
Proof.
  unfold Spec.strategy_sharpe, Spec.market_sharpe, Spec.strategy_std,
    Spec.strategy_mean_excess, Spec.market_mean_excess, Spec.market_std.
  rewrite invested_returns, invested_excess. reflexivity.
Qed.

Lemma invested_score :
  score_periods df = Ok (Rmin (Spec.market_sharpe df) 1000000).
Proof.
  rewrite (score_periods_nonempty df invested_nonempty).
  pose proof invested_market_std as Hm.
  destruct (Req_dec_T (Spec.strategy_std df) 0) as [E|_].
  - exfalso. apply Hm. unfold Spec.market_std.
    rewrite <- invested_returns. exact E.
  - destruct (Req_dec_T (Spec.market_std df) 0) as [E|_]; [contradiction|].
    unfold Spec.adjusted_sharpe.
    rewrite invested_vol_penalty, invested_return_penalty, invested_sharpe.
    do 2 f_equal. field.
Qed.

End FullyInvested.

(** The worked example of the specification. *)
Definition worked_solution : list ActualRow :=
  [mkActual 1%Z 0.01 0.0001; mkActual 2%Z (-0.02) 0.0001;
   mkActual 3%Z 0.015 0.0001].

Definition worked_submission : Submission :=
  mkSubmission true
    [mkPrediction 1%Z (Some 1); mkPrediction 2%Z (Some 1);
     mkPrediction 3%Z (Some 1)].

Definition worked_periods : list Period :=
  [mkPeriod 0.01 0.0001 1; mkPeriod (-0.02) 0.0001 1;
   mkPeriod 0.015 0.0001 1].

Lemma worked_periods_joined :
  periods (merge_left worked_solution (sub_rows worked_submission))
  = Some worked_periods.
Proof. reflexivity. Qed.

Lemma worked_invested : forall r, In r worked_periods -> position r = 1.
Proof. intros r [<-|[<-|[<-|[]]]]; reflexivity. Qed.

Lemma worked_moves : varies (market_returns worked_periods).
Proof.
  exists 0.01, (-0.02). split; [left; reflexivity|].
  split; [right; left; reflexivity|lra].
Qed.

Lemma sqrt_252_le_16 : sqrt 252 <= 16.
Proof.
  rewrite <- (sqrt_square 16) by lra. apply sqrt_le_1_alt. lra.
Qed.

Lemma sqrt_252_ge_1 : 1 <= sqrt 252.
Proof.
  rewrite <- sqrt_1 at 1. apply sqrt_le_1_alt. lra.
Qed.

Lemma worked_market_std_ge : 0.01 <= Spec.market_std worked_periods.
Proof.
  unfold Spec.market_std, Series_std. cbv zeta.
  rewrite <- (sqrt_square 0.01) at 1 by lra. apply sqrt_le_1_alt.
  unfold Series_mean, Series_sum, worked_periods, market_returns.
  simpl. lra.
Qed.

Lemma worked_market_mean_excess_le :
  Spec.market_mean_excess worked_periods <= 0.005.
Proof.
  unfold Spec.market_mean_excess, Spec.mean_excess_return.
  assert (Spec.cum (market_excess worked_periods)
          = (1 + (0.01 - 0.0001)) * (1 + (-0.02 - 0.0001))
            * (1 + (0.015 - 0.0001))) as Hcum
      by (unfold Spec.cum, Series_prod; simpl; ring).
  rewrite Hcum.
  set (c := (1 + (0.01 - 0.0001)) * (1 + (-0.02 - 0.0001))
            * (1 + (0.015 - 0.0001))).
  assert (1 <= c <= 1.005) as Hc by (unfold c; lra).
  destruct (Rle_dec c 0) as [H|_]; [lra|].
  assert (Rpower c (1 / INR (length (market_excess worked_periods)))
          <= Rpower c 1) as Hle.
  { apply Rle_Rpower; [lra|]. simpl. lra. }
  rewrite Rpower_1 in Hle by lra. lra.
Qed.

Lemma worked_market_sharpe_le : Spec.market_sharpe worked_periods <= 1000000.
Proof.
  unfold Spec.market_sharpe.
  pose proof worked_market_std_ge as Hstd.
  pose proof worked_market_mean_excess_le as Hme.
  pose proof sqrt_252_le_16 as Hs16. pose proof sqrt_252_ge_1 as Hs1.
  set (me := Spec.market_mean_excess worked_periods) in *.
  set (sd := Spec.market_std worked_periods) in *.
  assert (0 < / sd <= 100) as Hinv.
  { split; [apply Rinv_0_lt_compat; lra|].
    replace 100 with (/ 0.01) by lra.
    apply Rinv_le_contravar; lra. }
  unfold Rdiv.
  destruct (Rle_dec me 0) as [Hneg|Hpos].
  - assert (me * / sd <= 0) as H1 by nra.
    assert (me * / sd * sqrt 252 <= 0) as H2 by nra. lra.
  - assert (0 <= me * / sd <= 0.005 * 100) as H1 by nra.
    assert (me * / sd * sqrt 252 <= 0.005 * 100 * 16) as H2 by nra. lra.
Qed.

(** C3, as the code has it.  On a joined set whose predictions are all 1
    and whose forward returns are not constant, the strategy returns are
    the forward returns, both penalties are 1, and the score is the
    market's own annualized Sharpe ratio capped at 1,000,000; on the worked
    example of three periods the cap is not reached and the score is that
    Sharpe ratio. *)
Theorem fully_invested_score :
  (forall solution submission df,
     prediction_numeric submission = true ->
     periods (merge_left solution (sub_rows submission)) = Some df ->
     (forall r, In r df -> position r = 1) ->
     varies (market_returns df) ->
     strategy_returns df = market_returns df /\
     Spec.vol_penalty df = 1 /\
     Spec.return_penalty df = 1 /\
     compute_adjusted_sharpe solution submission =
       Ok (Rmin (Spec.market_sharpe df) 1000000)) /\
  (strategy_returns worked_periods = [0.01; -0.02; 0.015] /\
   Spec.vol_penalty worked_periods = 1 /\
   Spec.return_penalty worked_periods = 1 /\
   compute_adjusted_sharpe worked_solution worked_submission =
     Ok (Spec.market_sharpe worked_periods)).
Proof.
  assert (forall solution submission df,
     prediction_numeric submission = true ->
     periods (merge_left solution (sub_rows submission)) = Some df ->
     (forall r, In r df -> position r = 1) ->
     varies (market_returns df) ->
     strategy_returns df = market_returns df /\
     Spec.vol_penalty df = 1 /\
     Spec.return_penalty df = 1 /\
     compute_adjusted_sharpe solution submission =
       Ok (Rmin (Spec.market_sharpe df) 1000000)) as Hgen.
  { intros solution submission df Hnum Hps Hinv Hmoves.
    split; [apply invested_returns; exact Hinv|].
    split; [apply invested_vol_penalty; assumption|].
    split; [apply invested_return_penalty; exact Hinv|].
    unfold compute_adjusted_sharpe. rewrite Hnum.
    rewrite (score_joined_valid _ df Hps (invested_within_bounds df Hinv)).
    apply invested_score; assumption. }
  split; [exact Hgen|].
  destruct (Hgen worked_solution worked_submission worked_periods
              eq_refl worked_periods_joined worked_invested worked_moves)
    as (Hret & Hvol & Hpen & Hscore).
  split; [rewrite Hret; reflexivity|].
  split; [exact Hvol|]. split; [exact Hpen|].
  rewrite Hscore. f_equal. apply Rmin_left. apply worked_market_sharpe_le.
Qed.

Lemma fully_invested_score_witness :
  compute_adjusted_sharpe worked_solution worked_submission =
    Ok (Rmin (Spec.market_sharpe worked_periods) 1000000).
Proof.
  apply (proj1 fully_invested_score worked_solution worked_submission
               worked_periods).
  - reflexivity.
  - reflexivity.
  - intros r [<-|[<-|[<-|[]]]]; reflexivity.
  - exists 0.01, (-0.02). split; [left; reflexivity|].
    split; [right; left; reflexivity|lra].
Defined.

(** C3 fails as stated.  Two fully invested periods whose forward returns
    differ by a billionth while their excess returns are both 1%: the
    market's Sharpe ratio is above 1,000,000 and the score is 1,000,000. *)
Definition steady_solution : list ActualRow :=
  [mkActual 1%Z 0.01 0; mkActual 2%Z 0.010000001 0.000000001].

Definition steady_submission : Submission :=
  mkSubmission true [mkPrediction 1%Z (Some 1); mkPrediction 2%Z (Some 1)].

Definition steady_periods : list Period :=
  [mkPeriod 0.01 0 1; mkPeriod 0.010000001 0.000000001 1].

Lemma steady_market_sharpe : 1000000 < Spec.market_sharpe steady_periods.
Proof.
  unfold Spec.market_sharpe.
  assert (Spec.market_std steady_periods = 0.0000000005) as ->.
  { unfold Spec.market_std, steady_periods, market_returns. simpl map.
    rewrite Series_std_two. unfold Rabs. destruct (Rcase_abs _); lra. }
  assert (Spec.market_mean_excess steady_periods = 0.01) as ->.
  { unfold Spec.market_mean_excess, Spec.mean_excess_return.
    assert (Spec.cum (market_excess steady_periods) = 1.01 * 1.01) as ->
        by (unfold Spec.cum, Series_prod; simpl; lra).
    destruct (Rle_dec (1.01 * 1.01) 0) as [H|_]; [lra|].
    replace (1 / INR (length (market_excess steady_periods))) with (/ 2)
      by (simpl; lra).
    rewrite Rpower_sqrt by lra. rewrite sqrt_square by lra. lra. }
  pose proof sqrt_252_ge_1 as Hs. lra.
Qed.

Lemma steady_score_is_the_cap :
  periods (merge_left steady_solution (sub_rows steady_submission))
    = Some steady_periods /\
  (forall r, In r steady_periods -> position r = 1) /\
  varies (market_returns steady_periods) /\
  compute_adjusted_sharpe steady_solution steady_submission = Ok 1000000 /\
  Ok 1000000 <> Ok (Spec.market_sharpe steady_periods).
Proof.
  assert (forall r, In r steady_periods -> position r = 1) as Hinv
      by (intros r [<-|[<-|[]]]; reflexivity).
  assert (varies (market_returns steady_periods)) as Hmoves.
  { exists 0.01, 0.010000001. split; [left; reflexivity|].
    split; [right; left; reflexivity|lra]. }
  pose proof steady_market_sharpe as Hsharpe.
  assert (periods (merge_left steady_solution (sub_rows steady_submission))
          = Some steady_periods) as Hps by reflexivity.
  split; [exact Hps|]. split; [exact Hinv|]. split; [exact Hmoves|].
  split.
  - unfold compute_adjusted_sharpe. simpl prediction_numeric.
    rewrite (score_joined_valid _ steady_periods Hps
               (invested_within_bounds _ Hinv)).
    rewrite (invested_score _ Hinv Hmoves). f_equal.
    apply Rmin_right. lra.
  - intros H. injection H as H. lra.
Qed.

(** * Further properties of [compute_adjusted_sharpe] *)

(** ** The order of the failures *)

Lemma periods_positions df ps :
  periods df = Some ps ->
  forall r, In r ps -> exists j, In j df /\ prediction j = Some (position r).
Proof.
  revert ps. induction df as [|j rest IH]; simpl; intros ps H r Hr.
  - injection H as <-. destruct Hr.
  - destruct (prediction j) as [p|] eqn:Ep; [|discriminate H].
    destruct (periods rest) as [ps'|]; [|discriminate H].
    injection H as <-. destruct Hr as [<-|Hr].
    + exists j. split; [left; reflexivity|exact Ep].
    + destruct (IH ps' eq_refl r Hr) as (j' & Hj' & E).
      exists j'. split; [right; exact Hj'|exact E].
Qed.

Lemma periods_nil_iff df : periods df = Some [] <-> df = [].
Proof.
  split; [|intros ->; reflexivity].
  intros H. apply periods_length in H. destruct df; [reflexivity|discriminate H].
Qed.

Lemma merge_left_nil_iff solution rows :
  merge_left solution rows = [] <-> solution = [].
Proof.
  split; [|intros ->; reflexivity].
  intros H. pose proof (merge_left_length_ge rows solution) as Hge.
  rewrite H in Hge. destruct solution; [reflexivity|simpl in Hge; lia].
Qed.

Lemma score_periods_not_invalid_type (df : list Period) :
  score_periods df <> Raise InvalidPredictionTypeError.
Proof.
  destruct (score_periods_outcome df) as [H|[H|[H|H]]]; rewrite H;
    discriminate.
Qed.

(** The type failure is raised only when no joined row lacks a prediction
    and the dtype of the prediction column is not numeric: the null test
    comes first, and a numeric column never fails the type test. *)
Theorem invalid_type_only_if (solution : list ActualRow)
    (submission : Submission) :
  compute_adjusted_sharpe solution submission
    = Raise InvalidPredictionTypeError ->
  prediction_numeric submission = false /\
  (forall r, In r (merge_left solution (sub_rows submission)) ->
             prediction r <> None).
Proof.
  unfold compute_adjusted_sharpe.
  set (df := merge_left solution (sub_rows submission)).
  intros H. destruct (periods df) as [ps|] eqn:E.
  - rewrite (score_joined_some _ df ps E) in H.
    destruct (prediction_numeric submission).
    + exfalso. simpl negb in H. cbv iota in H.
      destruct (gt_b _ 2 || lt_b _ 0); [discriminate H|].
      exact (score_periods_not_invalid_type ps H).
    + split; [reflexivity|]. intros r Hr Hnull.
      assert (periods df = None) as E'
          by (apply periods_none_iff; exists r; split; assumption).
      rewrite E in E'. discriminate E'.
  - unfold score_joined in H. rewrite E in H. discriminate H.
Qed.

Lemma invalid_type_only_if_witness :
  prediction_numeric (mkSubmission false [mkPrediction 1%Z (Some 2.5)])
    = false /\
  (forall r,
     In r (merge_left [mkActual 1%Z 0.01 0.0001]
             (sub_rows (mkSubmission false [mkPrediction 1%Z (Some 2.5)]))) ->
     prediction r <> None).
Proof.
  apply (invalid_type_only_if
           [mkActual 1%Z 0.01 0.0001]
           (mkSubmission false [mkPrediction 1%Z (Some 2.5)])).
  reflexivity.
Defined.

(** The division [1 / n] fails exactly on a solution without rows scored
    against a numeric prediction column: an empty frame passes the null
    and bounds tests, and a frame with a row never divides by zero. *)
Theorem zero_division_iff (solution : list ActualRow)
    (submission : Submission) :
  compute_adjusted_sharpe solution submission = Raise ZeroDivisionError <->
  solution = [] /\ prediction_numeric submission = true.
Proof.
  unfold compute_adjusted_sharpe.
  set (df := merge_left solution (sub_rows submission)).
  split.
  - intros H. destruct (periods df) as [ps|] eqn:E.
    + rewrite (score_joined_some _ df ps E) in H.
      destruct (prediction_numeric submission); [|discriminate H].
      simpl negb in H. cbv iota in H.
      destruct (gt_b _ 2 || lt_b _ 0); [discriminate H|].
      split; [|reflexivity].
      destruct ps as [|r ps].
      * apply periods_nil_iff in E. unfold df in E.
        apply merge_left_nil_iff in E. exact E.
      * exfalso. rewrite score_periods_nonempty in H by discriminate.
        destruct (Req_dec_T _ 0); [discriminate H|].
        destruct (Req_dec_T _ 0); discriminate H.
    + unfold score_joined in H. rewrite E in H. discriminate H.
  - intros [-> Hnum]. unfold df. simpl merge_left. rewrite Hnum.
    rewrite (score_joined_valid [] [] eq_refl (Forall_nil _)).
    apply score_periods_empty.
Qed.

Lemma zero_division_iff_witness :
  compute_adjusted_sharpe [] (mkSubmission true []) = Raise ZeroDivisionError.
Proof.
  apply (proj2 (zero_division_iff [] (mkSubmission true []))).
  split; reflexivity.
Defined.




Lemma Series_std_two_values (x y : R) :
  x <> y -> Series_std [x; y] <> 0.
Proof.
  intros Hxy H. apply Hxy.
  apply (proj1 (Series_std_zero_iff [x; y] ltac:(discriminate))) in H.
  destruct H as (c & _ & Hc).
  rewrite (Hc x (or_introl eq_refl)), (Hc y (or_intror (or_introl eq_refl))).
  reflexivity.
Qed.


(** ** Submission rows the solution does not ask for *)

(** Whether the identifier of a submission row is one of the solution. *)
Definition wanted (solution : list ActualRow) (p : PredictionRow) : bool :=
  existsb (fun a => Z.eqb (sub_id p) (sol_id a)) solution.

Lemma filter_filter {A : Type} (f g : A -> bool) (l : list A) :
  filter f (filter g l) = filter (fun x => f x && g x) l.
Proof.
  induction l as [|x l IH]; [reflexivity|]. simpl.
  destruct (g x); simpl; destruct (f x); simpl; rewrite ?IH; reflexivity.
Qed.

Lemma matching_wanted solution rows a :
  In a solution ->
  matching a (filter (wanted solution) rows) = matching a rows.
Proof.
  intros Ha. unfold matching. rewrite filter_filter. apply filter_ext.
  intros p. destruct (Z.eqb (sub_id p) (sol_id a)) eqn:E; [|reflexivity].
  simpl. unfold wanted. apply existsb_exists. exists a. split; assumption.
Qed.

Lemma merge_left_matching_ext solution rows rows' :
  (forall a, In a solution -> matching a rows' = matching a rows) ->
  merge_left solution rows' = merge_left solution rows.
Proof.
  induction solution as [|a solution IH]; intros H; [reflexivity|].
  rewrite !merge_left_cons. unfold joined_of.
  rewrite (H a (or_introl eq_refl)). f_equal.
  apply IH. intros b Hb. apply H. right. exact Hb.
Qed.

(** Submission rows whose identifier is not in the solution have no part
    in the score: dropping them leaves the merged frame, and with it the
    outcome, unchanged. *)
Theorem unwanted_rows_ignored (solution : list ActualRow)
    (numeric : bool) (rows : list PredictionRow) :
  merge_left solution (filter (wanted solution) rows)
    = merge_left solution rows /\
  compute_adjusted_sharpe solution
      (mkSubmission numeric (filter (wanted solution) rows))
    = compute_adjusted_sharpe solution (mkSubmission numeric rows).
Proof.
  assert (merge_left solution (filter (wanted solution) rows)
          = merge_left solution rows) as H
      by (apply merge_left_matching_ext; intros a Ha;
          apply matching_wanted; exact Ha).
  split; [exact H|].
  unfold compute_adjusted_sharpe. simpl. rewrite H. reflexivity.
Qed.

(** ** Excess returns and positions *)

(** In every row the strategy's return in excess of the risk-free rate is
    the position times the market's excess return. *)
Theorem strategy_excess_scales (df : list Period) :
  strategy_excess df = map (fun r => position r * (fwd r - rf r)) df.
Proof.
  unfold strategy_excess. apply map_ext. intros r.
  unfold strategy_return. ring.
Qed.

Lemma Rpower_one (y : R) : Rpower 1 y = 1.
Proof. unfold Rpower. rewrite ln_1, Rmult_0_r. apply exp_0. Qed.

Lemma Series_prod_ones (s : list R) :
  (forall x, In x s -> x = 0) -> Series_prod (map (fun e => 1 + e) s) = 1.
Proof.
  induction s as [|x t IH]; intros H; [reflexivity|].
  change (Series_prod (map (fun e => 1 + e) (x :: t)))
    with ((1 + x) * Series_prod (map (fun e => 1 + e) t)).
  rewrite IH by (intros y Hy; apply H; right; exact Hy).
  rewrite (H x (or_introl eq_refl)). ring.
Qed.

Section AllCash.

Variable df : list Period.
Hypothesis cash : forall r, In r df -> position r = 0.

Lemma cash_returns : strategy_returns df = map rf df.
Proof.
  unfold strategy_returns. apply map_ext_in.
  intros r Hr. unfold strategy_return. rewrite (cash r Hr). ring.
Qed.

Lemma cash_within_bounds : within_bounds df.
Proof. apply Forall_forall. intros r Hr. rewrite (cash r Hr). lra. Qed.

Lemma cash_mean_excess : Spec.strategy_mean_excess df = 0.
Proof.
  unfold Spec.strategy_mean_excess, Spec.mean_excess_return, Spec.cum.
  rewrite Series_prod_ones.
  - destruct (Rle_dec 1 0); [lra|]. rewrite Rpower_one. ring.
  - intros x Hx. unfold strategy_excess in Hx. apply in_map_iff in Hx.
    destruct Hx as (r & <- & Hr). unfold strategy_return.
    rewrite (cash r Hr). ring.
Qed.

Lemma cash_adjusted_sharpe : Spec.adjusted_sharpe df = 0.
Proof.
  unfold Spec.adjusted_sharpe, Spec.strategy_sharpe.
  rewrite cash_mean_excess.
  replace (0 / Spec.strategy_std df * sqrt 252
           / (Spec.vol_penalty df * Spec.return_penalty df)) with 0
    by (unfold Rdiv; ring).
  apply Rmin_left. lra.
Qed.

End AllCash.

(** A submission that stays in cash, with every prediction 0, earns the
    risk-free rate in every period.  Whatever [std(ddof=0)] computes, it is
    scored exactly 0 when the deviation computed for the risk-free rates
    and the volatility computed for the market are not zero, and fails with
    ["strategy std is zero"] when the first is zero. *)
Theorem all_cash_computed (std : list R -> R) (solution : list ActualRow)
    (submission : Submission) (df : list Period) :
  prediction_numeric submission = true ->
  periods (merge_left solution (sub_rows submission)) = Some df ->
  df <> [] ->
  (forall r, In r df -> position r = 0) ->
  strategy_returns df = map rf df /\
  (std (map rf df) <> 0 ->
   annualized_volatility (std (market_returns df)) <> 0 ->
   compute_adjusted_sharpe_with std solution submission = Ok 0) /\
  (std (map rf df) = 0 ->
   compute_adjusted_sharpe_with std solution submission
   = Raise StrategyStdZero).
Proof.
  intros Hnum Hps Hne Hcash.
  pose proof (cash_returns df Hcash) as Hret.
  assert (compute_adjusted_sharpe_with std solution submission
          = score_periods_with std df) as ->.
  { unfold compute_adjusted_sharpe_with. rewrite Hnum.
    apply score_joined_with_valid;
      [exact Hps|apply cash_within_bounds; exact Hcash]. }
  rewrite (score_periods_with_nonempty std df Hne), Hret.
  split; [reflexivity|]. split.
  - intros Hs Hm.
    destruct (Req_dec_T (std (map rf df)) 0) as [E|_]; [contradiction|].
    destruct (Req_dec_T (annualized_volatility (std (market_returns df))) 0)
      as [E|_]; [contradiction|].
    f_equal. unfold adjusted_sharpe_with, adjusted_sharpe_of, score_cap.
    rewrite (cash_mean_excess df Hcash).
    match goal with
    | |- Rmin ?a _ = 0 => replace a with 0 by (unfold Rdiv; ring)
    end.
    apply Rmin_left. lra.
  - intros Hs.
    destruct (Req_dec_T (std (map rf df)) 0) as [_|E];
      [reflexivity|contradiction].
Qed.

Lemma all_cash_computed_witness :
  compute_adjusted_sharpe_with Series_std
    [mkActual 1%Z 0.01 0.0001; mkActual 2%Z (-0.02) 0.0002]
    (mkSubmission true [mkPrediction 1%Z (Some 0); mkPrediction 2%Z (Some 0)])
  = Ok 0.
Proof.
  apply (all_cash_computed Series_std
           [mkActual 1%Z 0.01 0.0001; mkActual 2%Z (-0.02) 0.0002]
           (mkSubmission true
              [mkPrediction 1%Z (Some 0); mkPrediction 2%Z (Some 0)])
           [mkPeriod 0.01 0.0001 0; mkPeriod (-0.02) 0.0002 0]).
  - reflexivity.
  - reflexivity.
  - discriminate.
  - intros r [<-|[<-|[]]]; reflexivity.
  - apply Series_std_two_values. simpl. lra.
  - intros H. apply (proj1 (annualized_volatility_zero_iff _)) in H.
    revert H. apply Series_std_two_values. simpl. lra.
Defined.

(** ** What the penalties do to the Sharpe ratio *)

Lemma Series_std_nonneg (s : list R) : 0 <= Series_std s.
Proof. unfold Series_std. cbv zeta. apply sqrt_pos. Qed.

(** What a returned score tells about the validated frame. *)
Lemma score_ok_inv solution submission df v :
  periods (merge_left solution (sub_rows submission)) = Some df ->
  compute_adjusted_sharpe solution submission = Ok v ->
  df <> [] /\ 0 < Spec.strategy_std df /\ 0 < Spec.market_std df /\
  v = Spec.adjusted_sharpe df.
Proof.
  intros Hps H. unfold compute_adjusted_sharpe in H.
  rewrite (score_joined_some _ _ df Hps) in H.
  destruct (negb _); [discriminate H|].
  destruct (gt_b _ 2 || lt_b _ 0); [discriminate H|].
  destruct df as [|r df]; [rewrite score_periods_empty in H; discriminate H|].
  set (ps := r :: df) in *. assert (ps <> []) as Hne by discriminate.
  rewrite (score_periods_nonempty ps Hne) in H.
  destruct (Req_dec_T (Spec.strategy_std ps) 0) as [Hs|Hs]; [discriminate H|].
  destruct (Req_dec_T (Spec.market_std ps) 0) as [Hm|Hm]; [discriminate H|].
  injection H as <-.
  pose proof (Series_std_nonneg (strategy_returns ps)) as H1.
  pose proof (Series_std_nonneg (market_returns ps)) as H2.
  unfold Spec.strategy_std, Spec.market_std in *.
  split; [exact Hne|]. split; [lra|]. split; [lra|reflexivity].
Qed.

Lemma excess_vol_nonneg (sv mv : R) : 0 <= excess_vol_of sv mv.
Proof. unfold excess_vol_of. apply Rmax_l. Qed.

Lemma return_gap_nonneg (m s : R) : 0 <= return_gap_of m s.
Proof. unfold return_gap_of. apply Rmax_l. Qed.

(** Both penalties are at least 1.  The volatility penalty is 1 exactly
    when the strategy's volatility is at most 1.2 times the market's, and
    the return penalty is 1 exactly when the strategy's mean excess return
    is not below the market's. *)
Theorem penalty_thresholds (strategy_volatility market_volatility
    market_mean_excess strategy_mean_excess : R) :
  0 < market_volatility ->
  1 <= vol_penalty_of (excess_vol_of strategy_volatility market_volatility) /\
  1 <= return_penalty_of
         (return_gap_of market_mean_excess strategy_mean_excess) /\
  (vol_penalty_of (excess_vol_of strategy_volatility market_volatility) = 1
   <-> strategy_volatility <= 1.2 * market_volatility) /\
  (return_penalty_of (return_gap_of market_mean_excess strategy_mean_excess)
     = 1
   <-> market_mean_excess <= strategy_mean_excess).
Proof.
  intros Hmv.
  pose proof (excess_vol_nonneg strategy_volatility market_volatility) as Hev.
  pose proof (return_gap_nonneg market_mean_excess strategy_mean_excess)
    as Hrg.
  pose proof (return_penalty_pos
                (return_gap_of market_mean_excess strategy_mean_excess))
    as Hrp.
  split; [unfold vol_penalty_of; lra|]. split; [exact Hrp|].
  assert (strategy_volatility / market_volatility - 1.2 <= 0
          <-> strategy_volatility <= 1.2 * market_volatility) as Hratio.
  { split; intros H.
    - apply Rmult_le_reg_r with (/ market_volatility);
        [apply Rinv_0_lt_compat; exact Hmv|].
      replace (1.2 * market_volatility * / market_volatility) with 1.2
        by (field; lra).
      unfold Rdiv in H. lra.
    - assert (strategy_volatility / market_volatility <= 1.2); [|lra].
      apply Rmult_le_reg_r with market_volatility; [exact Hmv|].
      replace (strategy_volatility / market_volatility * market_volatility)
        with strategy_volatility by (field; lra).
      exact H. }
  split.
  - rewrite <- Hratio. unfold vol_penalty_of, excess_vol_of, Rmax.
    destruct (Rle_dec 0 (strategy_volatility / market_volatility - 1.2));
      split; intros H; lra.
  - unfold return_penalty_of, return_gap_of, trading_days_per_yr, Rmax.
    destruct (Rle_dec 0 ((market_mean_excess - strategy_mean_excess)
                         * 100 * 252)) as [Hle|Hgt].
    + split; intros H.
      * assert (((market_mean_excess - strategy_mean_excess) * 100 * 252) ^ 2
                = 0) as H0 by lra.
        simpl in H0. rewrite Rmult_1_r in H0.
        apply Rmult_integral in H0. lra.
      * assert ((market_mean_excess - strategy_mean_excess) * 100 * 252 = 0)
          as -> by lra.
        simpl. lra.
    + split; intros H; [lra|simpl; lra].
Qed.

Lemma penalty_thresholds_witness :
  vol_penalty_of (excess_vol_of 12 10) = 1 /\
  return_penalty_of (return_gap_of 0.001 0.002) = 1.
Proof.
  pose proof (penalty_thresholds 12 10 0.001 0.002) as H.
  destruct H as (_ & _ & Hv & Hr); [lra|].
  split; [apply Hv; lra|apply Hr; lra].
Defined.

Lemma ratio_shrinks (s d : R) :
  1 <= d -> (0 <= s -> 0 <= s / d <= s) /\ (s <= 0 -> s <= s / d <= 0).
Proof.
  intros Hd.
  assert (0 < / d <= 1) as Hinv.
  { split; [apply Rinv_0_lt_compat; lra|].
    rewrite <- Rinv_1. apply Rinv_le_contravar; lra. }
  unfold Rdiv. split; intros Hs; split; nra.
Qed.

Lemma spec_penalties_ge_1 (df : list Period) :
  1 <= Spec.vol_penalty df * Spec.return_penalty df.
Proof.
  assert (1 <= Spec.vol_penalty df) as Hv.
  { unfold Spec.vol_penalty, Spec.excess_vol.
    pose proof (Rmax_l 0 (Spec.strategy_volatility df
                          / Spec.market_volatility df - 1.2)). lra. }
  assert (1 <= Spec.return_penalty df) as Hr.
  { unfold Spec.return_penalty.
    pose proof (pow2_ge_0 (Spec.return_gap df)). lra. }
  nra.
Qed.

(** The penalties only pull a score towards zero: a returned score has the
    sign of the strategy's Sharpe ratio and is never larger in magnitude. *)
Theorem score_between_zero_and_sharpe (solution : list ActualRow)
    (submission : Submission) (df : list Period) (v : R) :
  periods (merge_left solution (sub_rows submission)) = Some df ->
  compute_adjusted_sharpe solution submission = Ok v ->
  (0 <= Spec.strategy_sharpe df -> 0 <= v <= Spec.strategy_sharpe df) /\
  (Spec.strategy_sharpe df <= 0 -> Spec.strategy_sharpe df <= v <= 0).
Proof.
  intros Hps H.
  destruct (score_ok_inv _ _ _ _ Hps H) as (_ & _ & _ & ->).
  unfold Spec.adjusted_sharpe.
  destruct (ratio_shrinks (Spec.strategy_sharpe df)
              (Spec.vol_penalty df * Spec.return_penalty df)
              (spec_penalties_ge_1 df)) as [Hpos Hneg].
  unfold Rmin.
  destruct (Rle_dec (Spec.strategy_sharpe df
                     / (Spec.vol_penalty df * Spec.return_penalty df))
                    1000000) as [Hle|Hgt];
    split; intros Hs;
    try (specialize (Hpos Hs)); try (specialize (Hneg Hs)); lra.
Qed.

(** Without excess volatility and without a return shortfall the score is
    the strategy's own Sharpe ratio, capped. *)
Theorem unpenalized_score (solution : list ActualRow)
    (submission : Submission) (df : list Period) (v : R) :
  periods (merge_left solution (sub_rows submission)) = Some df ->
  compute_adjusted_sharpe solution submission = Ok v ->
  Spec.strategy_volatility df <= 1.2 * Spec.market_volatility df ->
  Spec.market_mean_excess df <= Spec.strategy_mean_excess df ->
  v = Rmin (Spec.strategy_sharpe df) 1000000.
Proof.
  intros Hps H Hvol Hret.
  destruct (score_ok_inv _ _ _ _ Hps H) as (_ & _ & Hm & ->).
  pose proof sqrt_252_pos as Hsq.
  assert (0 < Spec.market_volatility df) as Hmv
      by (unfold Spec.market_volatility; nra).
  unfold Spec.adjusted_sharpe. f_equal.
  assert (Spec.vol_penalty df = 1) as ->.
  { unfold Spec.vol_penalty, Spec.excess_vol.
    assert (Spec.strategy_volatility df / Spec.market_volatility df <= 1.2).
    { apply Rmult_le_reg_r with (Spec.market_volatility df); [exact Hmv|].
      replace (Spec.strategy_volatility df / Spec.market_volatility df
               * Spec.market_volatility df)
        with (Spec.strategy_volatility df) by (field; lra).
      exact Hvol. }
    unfold Rmax. destruct (Rle_dec 0 _); lra. }
  assert (Spec.return_penalty df = 1) as ->.
  { unfold Spec.return_penalty, Spec.return_gap, Rmax.
    destruct (Rle_dec 0 _) as [Hle|Hgt]; [|simpl; lra].
    assert ((Spec.market_mean_excess df - Spec.strategy_mean_excess df)
            * 100 * 252 = 0) as -> by lra.
    simpl. lra. }
  field.
Qed.

Definition two_solution : list ActualRow :=
  [mkActual 1%Z 0.01 0; mkActual 2%Z (-0.02) 0].

Definition two_submission : Submission :=
  mkSubmission true [mkPrediction 1%Z (Some 1); mkPrediction 2%Z (Some 1)].

Lemma two_periods_invested : forall r, In r two_periods -> position r = 1.
Proof. intros r [<-|[<-|[]]]; reflexivity. Qed.

Lemma two_periods_moves : varies (market_returns two_periods).
Proof.
  exists 0.01, (-0.02). split; [left; reflexivity|].
  split; [right; left; reflexivity|lra].
Qed.

Lemma two_periods_score :
  compute_adjusted_sharpe two_solution two_submission
  = Ok (Rmin (Spec.market_sharpe two_periods) 1000000).
Proof.
  unfold compute_adjusted_sharpe. simpl prediction_numeric.
  assert (periods (merge_left two_solution (sub_rows two_submission))
          = Some two_periods) as Hps by reflexivity.
  rewrite (score_joined_valid _ two_periods Hps
             (invested_within_bounds _ two_periods_invested)).
  apply invested_score; [exact two_periods_invested|exact two_periods_moves].
Qed.

Lemma score_between_zero_and_sharpe_witness :
  (0 <= Spec.strategy_sharpe two_periods ->
   0 <= Rmin (Spec.market_sharpe two_periods) 1000000
     <= Spec.strategy_sharpe two_periods) /\
  (Spec.strategy_sharpe two_periods <= 0 ->
   Spec.strategy_sharpe two_periods
     <= Rmin (Spec.market_sharpe two_periods) 1000000 <= 0).
Proof.
  apply (score_between_zero_and_sharpe two_solution two_submission).
  - reflexivity.
  - exact two_periods_score.
Defined.

Lemma unpenalized_score_witness :
  Rmin (Spec.market_sharpe two_periods) 1000000
  = Rmin (Spec.strategy_sharpe two_periods) 1000000.
Proof.
  apply (unpenalized_score two_solution two_submission two_periods).
  - reflexivity.
  - exact two_periods_score.
  - unfold Spec.strategy_volatility, Spec.market_volatility,
      Spec.strategy_std, Spec.market_std.
    rewrite (invested_returns _ two_periods_invested).
    pose proof (Series_std_nonneg (market_returns two_periods)) as H.
    pose proof sqrt_252_pos as Hs. nra.
  - unfold Spec.strategy_mean_excess, Spec.market_mean_excess.
    rewrite (invested_excess _ two_periods_invested). apply Rle_refl.
Defined.

(** ** A constant position at a constant risk-free rate *)

Lemma Series_sum_affine (a k : R) (s : list R) :
  Series_sum (map (fun x => a + k * x) s)
  = INR (length s) * a + k * Series_sum s.
Proof.
  induction s as [|x t IH]; [simpl; ring|].
  change (Series_sum (map (fun x => a + k * x) (x :: t)))
    with (a + k * x + Series_sum (map (fun x => a + k * x) t)).
  change (Series_sum (x :: t)) with (x + Series_sum t).
  change (length (x :: t)) with (S (length t)). rewrite S_INR, IH. ring.
Qed.

Lemma Series_sum_scale (k : R) (s : list R) :
  Series_sum (map (fun x => k * x) s) = k * Series_sum s.
Proof.
  induction s as [|x t IH]; [simpl; ring|].
  change (Series_sum (map (fun x => k * x) (x :: t)))
    with (k * x + Series_sum (map (fun x => k * x) t)).
  change (Series_sum (x :: t)) with (x + Series_sum t).
  rewrite IH. ring.
Qed.

Lemma Series_std_affine (a k : R) (s : list R) :
  s <> [] ->
  Series_std (map (fun x => a + k * x) s) = Rabs k * Series_std s.
Proof.
  intros Hne. pose proof (INR_length_pos s Hne) as Hn.
  unfold Series_std, Series_mean. cbv zeta.
  rewrite Series_sum_affine, !length_map, map_map.
  set (m := Series_sum s / INR (length s)).
  replace ((INR (length s) * a + k * Series_sum s) / INR (length s))
    with (a + k * m) by (unfold m; field; lra).
  rewrite (map_ext (fun x => (a + k * x - (a + k * m)) ^ 2)
                   (fun x => (k * k) * (x - m) ^ 2))
    by (intros x; ring).
  rewrite <- (map_map (fun x => (x - m) ^ 2) (fun y => (k * k) * y)).
  rewrite Series_sum_scale.
  replace (k * k * Series_sum (map (fun x => (x - m) ^ 2) s)
           / INR (length s))
    with (Rsqr k * (Series_sum (map (fun x => (x - m) ^ 2) s)
                    / INR (length s)))
    by (unfold Rsqr; field; lra).
  rewrite sqrt_mult_alt by apply Rle_0_sqr.
  rewrite sqrt_Rsqr_abs. reflexivity.
Qed.

(** With one position [p] in every period and a risk-free rate that does
    not change, the strategy's deviation is [p] times the market's; when
    the forward returns vary, the volatility penalty is therefore
    [1 + max(0, p - 1.2)]: none up to a position of 1.2, and 1.8 at the
    full leverage of 2. *)
Theorem constant_position_volatility (df : list Period) (p c : R) :
  0 <= p ->
  (forall r, In r df -> position r = p /\ rf r = c) ->
  varies (market_returns df) ->
  Spec.strategy_std df = p * Spec.market_std df /\
  Spec.vol_penalty df = 1 + Rmax 0 (p - 1.2) /\
  (p <= 1.2 -> Spec.vol_penalty df = 1) /\
  (p = 2 -> Spec.vol_penalty df = 1.8).
Proof.
  intros Hp Hall Hmoves.
  assert (market_returns df <> []) as Hne by (apply varies_nonempty; exact Hmoves).
  assert (Spec.strategy_std df = p * Spec.market_std df) as Hstd.
  { unfold Spec.strategy_std, Spec.market_std, strategy_returns,
      market_returns.
    rewrite (map_ext_in strategy_return (fun r => c * (1 - p) + p * fwd r)).
    - rewrite <- (map_map fwd (fun x => c * (1 - p) + p * x)).
      rewrite Series_std_affine by exact Hne.
      rewrite Rabs_pos_eq by exact Hp. reflexivity.
    - intros r Hr. destruct (Hall r Hr) as [Hpos Hrf].
      unfold strategy_return. rewrite Hpos, Hrf. reflexivity. }
  assert (Spec.market_std df <> 0) as Hm.
  { unfold Spec.market_std. intros H.
    apply (varies_not_constant _ Hmoves).
    apply Series_std_zero_iff; assumption. }
  assert (Spec.vol_penalty df = 1 + Rmax 0 (p - 1.2)) as Hpen.
  { unfold Spec.vol_penalty, Spec.excess_vol, Spec.strategy_volatility,
      Spec.market_volatility.
    rewrite Hstd. pose proof sqrt_252_pos as Hs.
    replace (p * Spec.market_std df * sqrt 252 * 100
             / (Spec.market_std df * sqrt 252 * 100)) with p
      by (field; split; lra).
    reflexivity. }
  split; [exact Hstd|]. split; [exact Hpen|].
  split; intros H; rewrite Hpen; unfold Rmax;
    destruct (Rle_dec 0 (p - 1.2)); lra.
Qed.

Lemma constant_position_volatility_witness :
  Spec.vol_penalty [mkPeriod 0.01 0.0001 2; mkPeriod (-0.02) 0.0001 2] = 1.8.
Proof.
  apply (constant_position_volatility
           [mkPeriod 0.01 0.0001 2; mkPeriod (-0.02) 0.0001 2] 2 0.0001).
  - lra.
  - intros r [<-|[<-|[]]]; split; reflexivity.
  - exists 0.01, (-0.02). split; [left; reflexivity|].
    split; [right; left; reflexivity|lra].
  - reflexivity.
Defined.

(** * The identifier column ([src/metric.py] lines 183-184,
      [src/rule_predict.py] lines 85-88) *)

Local Open Scope string_scope.

Definition candidate_ids : list string :=
  ["row_id"; "id"; "index"; "date_id"; "rowid"].

(** [c in candidate_ids] *)
Definition is_candidate (c : string) : bool :=
  existsb (String.eqb c) candidate_ids.

(** [next((c for c in columns if c in candidate_ids), columns[0])].  The
    default [columns[0]] is an argument of [next] and is evaluated before
    the search: a frame without columns ends in IndexError, here [None]. *)
Definition detect_id_col (columns : list string) : option string :=
  match columns with
  | [] => None
  | first :: _ =>
      match find is_candidate columns with
      | Some c => Some c
      | None => Some first
      end
  end.

Local Close Scope string_scope.

Lemma is_candidate_iff (c : string) :
  is_candidate c = true <-> In c candidate_ids.
Proof.
  unfold is_candidate. rewrite existsb_exists. split.
  - intros (x & Hx & E). apply String.eqb_eq in E. subst x. exact Hx.
  - intros H. exists c. split; [exact H|apply String.eqb_refl].
Qed.

Lemma find_first {A : Type} (f : A -> bool) (l : list A) (x : A) :
  find f l = Some x <->
  exists pre post, l = pre ++ x :: post /\ f x = true /\
                   forall y, In y pre -> f y = false.
Proof.
  induction l as [|a l IH]; simpl.
  - split; [discriminate|].
    intros (pre & post & E & _). destruct pre; discriminate E.
  - destruct (f a) eqn:Ea.
    + split.
      * intros H. injection H as <-. exists [], l.
        split; [reflexivity|]. split; [exact Ea|]. intros y [].
      * intros (pre & post & E & Hx & Hpre). destruct pre as [|b pre].
        -- simpl in E. injection E as -> _. reflexivity.
        -- simpl in E. injection E as -> _.
           rewrite (Hpre b (or_introl eq_refl)) in Ea. discriminate Ea.
    + rewrite IH. split.
      * intros (pre & post & -> & Hx & Hpre). exists (a :: pre), post.
        split; [reflexivity|]. split; [exact Hx|].
        intros y [<-|Hy]; [exact Ea|apply Hpre; exact Hy].
      * intros (pre & post & E & Hx & Hpre). destruct pre as [|b pre].
        -- simpl in E. injection E as -> _. rewrite Hx in Ea. discriminate Ea.
        -- simpl in E. injection E as -> ->. exists pre, post.
           split; [reflexivity|]. split; [exact Hx|].
           intros y Hy. apply Hpre. right. exact Hy.
Qed.

(** The detection fails only on a frame without columns, and the column
    it names is always a column of the frame. *)
Theorem detect_id_col_in_columns (columns : list string) :
  (detect_id_col columns = None <-> columns = []) /\
  (forall c, detect_id_col columns = Some c -> In c columns).
Proof.
  destruct columns as [|first rest].
  - split; [split; reflexivity|]. intros c H. discriminate H.
  - split.
    + split; [|discriminate]. unfold detect_id_col.
      destruct (find _ _); discriminate.
    + intros c H. unfold detect_id_col in H.
      destruct (find is_candidate (first :: rest)) as [x|] eqn:E.
      * injection H as <-. apply find_some in E. apply E.
      * injection H as <-. left. reflexivity.
Qed.

Lemma detect_id_col_in_columns_witness :
  In "date_id"%string ["date_id"; "prediction"]%string.
Proof.
  apply (proj2 (detect_id_col_in_columns ["date_id"; "prediction"]%string)).
  reflexivity.
Defined.

(** The column named is the first column, in the order of the frame, whose
    name is one of the five aliases, and the first column of the frame
    when no name is an alias.  The order of the aliases plays no part. *)
Theorem detect_id_col_choice (columns : list string) (c : string) :
  detect_id_col columns = Some c <->
  (exists pre post,
     columns = pre ++ c :: post /\ In c candidate_ids /\
     forall x, In x pre -> ~ In x candidate_ids) \/
  (exists rest,
     columns = c :: rest /\ forall x, In x columns -> ~ In x candidate_ids).
Proof.
  destruct columns as [|first rest].
  - split; [discriminate|].
    intros [(pre & post & E & _)|(r & E & _)];
      [destruct pre; discriminate E|discriminate E].
  - unfold detect_id_col.
    destruct (find is_candidate (first :: rest)) as [x|] eqn:E.
    + split.
      * intros H. injection H as <-. left.
        apply find_first in E. destruct E as (pre & post & E & Hx & Hpre).
        exists pre, post. split; [exact E|].
        split; [apply is_candidate_iff; exact Hx|].
        intros y Hy Hc. apply is_candidate_iff in Hc.
        rewrite (Hpre y Hy) in Hc. discriminate Hc.
      * intros [(pre & post & Ec & Hc & Hpre)|(r & Ec & Hnone)].
        -- assert (find is_candidate (first :: rest) = Some c) as E'.
           { apply find_first. exists pre, post. split; [exact Ec|].
             split; [apply is_candidate_iff; exact Hc|].
             intros y Hy. destruct (is_candidate y) eqn:Ey; [|reflexivity].
             exfalso. apply (Hpre y Hy). apply is_candidate_iff. exact Ey. }
           rewrite E in E'. exact E'.
        -- exfalso. apply find_some in E. destruct E as [Hin Hx].
           apply (Hnone x Hin). apply is_candidate_iff. exact Hx.
    + split.
      * intros H. injection H as <-. right. exists rest.
        split; [reflexivity|]. intros x Hx Hc.
        apply is_candidate_iff in Hc.
        rewrite (find_none _ _ E x Hx) in Hc. discriminate Hc.
      * intros [(pre & post & Ec & Hc & _)|(r & Ec & _)].
        -- exfalso. apply is_candidate_iff in Hc.
           assert (In c (first :: rest)) as Hin
               by (rewrite Ec; apply in_or_app; right; left; reflexivity).
           rewrite (find_none _ _ E c Hin) in Hc. discriminate Hc.
        -- injection Ec as -> _. reflexivity.
Qed.

Lemma detect_id_col_choice_witness :
  detect_id_col ["lagged_forward_returns"; "date_id"; "row_id"]%string
  = Some "date_id"%string.
Proof.
  apply (proj2 (detect_id_col_choice
                  ["lagged_forward_returns"; "date_id"; "row_id"]%string
                  "date_id"%string)).
  left. exists ["lagged_forward_returns"%string], ["row_id"%string].
  split; [reflexivity|]. split.
  - right; right; right; left; reflexivity.
  - intros x [<-|[]] H. simpl in H.
    repeat (destruct H as [H|H]; [discriminate H|]). exact H.
Defined.

(** * The rule-based baseline ([src/rule_predict.py]) *)

(** [test.csv] as the script reads it: its identifiers (the column named
    at lines 85-88), with the column [lagged_forward_returns] when the file
    has it.  A cell of that column may be NaN, here [None]. *)
Inductive TestFrame : Type :=
| WithLag (rows : list (ident * option R))
| WithoutLag (ids : list ident).

Definition test_ids (test : TestFrame) : list ident :=
  match test with
  | WithLag rows => map fst rows
  | WithoutLag ids => ids
  end.

(** [1.2 if x > 0 else 0.8]; a comparison with NaN is false. *)
Definition rule (x : option R) : R :=
  match x with
  | Some v => if Rlt_dec 0 v then 1.2 else 0.8
  | None => 0.8
  end.

(** [Series.clip(lower, upper)] on one value, for [lower <= upper]. *)
Definition clip (lower upper x : R) : R :=
  if Rlt_dec x lower then lower
  else if Rlt_dec upper x then upper else x.

(** [s.iloc[-1]]: IndexError, here [None], on an empty series. *)
Definition iloc_last {A : Type} (s : list A) : option A :=
  match rev s with
  | [] => None
  | x :: _ => Some x
  end.

(** Lines 51-75 and 98: the rows written to [rule_pred.csv], from the
    column [forward_returns] of [train.csv] and from [test.csv].  [None] is
    the IndexError of [iloc[-1]]. *)
Definition rule_predict (train_forward_returns : list (option R))
    (test : TestFrame) : option (list PredictionRow) :=
  match test with
  | WithLag rows =>
      Some (map (fun r => mkPrediction (fst r)
                            (Some (clip 0 2 (rule (snd r))))) rows)
  | WithoutLag ids =>
      match iloc_last train_forward_returns with
      | None => None
      | Some last_return =>
          Some (map (fun i => mkPrediction i
                                (Some (clip 0 2 (rule last_return)))) ids)
      end
  end.

Lemma rule_values (x : option R) : rule x = 1.2 \/ rule x = 0.8.
Proof.
  unfold rule. destruct x as [v|]; [|right; reflexivity].
  destruct (Rlt_dec 0 v); [left|right]; reflexivity.
Qed.

Lemma clip_rule (x : option R) : clip 0 2 (rule x) = rule x.
Proof.
  unfold clip. destruct (rule_values x) as [-> | ->];
    (destruct (Rlt_dec _ 0); [lra|]); destruct (Rlt_dec 2 _); try lra;
    reflexivity.
Qed.

Lemma iloc_last_none_iff {A : Type} (s : list A) :
  iloc_last s = None <-> s = [].
Proof.
  unfold iloc_last. split.
  - intros H. destruct (rev s) eqn:E; [|discriminate H].
    rewrite <- (rev_involutive s), E. reflexivity.
  - intros ->. reflexivity.
Qed.

Lemma iloc_last_app {A : Type} (s : list A) (x : A) :
  iloc_last (s ++ [x]) = Some x.
Proof. unfold iloc_last. rewrite rev_app_distr. reflexivity. Qed.

(** What the rows of the baseline look like. *)
Lemma rule_predict_rows train test rows :
  rule_predict train test = Some rows ->
  map sub_id rows = test_ids test /\
  forall p, In p rows -> exists x, sub_prediction p = Some (rule x).
Proof.
  unfold rule_predict. destruct test as [trows|ids].
  - intros H. injection H as <-. split.
    + rewrite map_map. reflexivity.
    + intros p Hp. apply in_map_iff in Hp. destruct Hp as (r & <- & _).
      exists (snd r). simpl. rewrite clip_rule. reflexivity.
  - destruct (iloc_last train) as [last_return|]; [|discriminate].
    intros H. injection H as <-. split.
    + rewrite map_map. simpl. apply map_id.
    + intros p Hp. apply in_map_iff in Hp. destruct Hp as (i & <- & _).
      exists last_return. simpl. rewrite clip_rule. reflexivity.
Qed.

(** The baseline writes one row per row of the test frame, with its
    identifier and in its order; every prediction is 1.2 or 0.8, so that
    the clipping to [[0, 2]] of line 75 never changes a value. *)
Theorem rule_predict_values (train : list (option R)) (test : TestFrame)
    (rows : list PredictionRow) :
  rule_predict train test = Some rows ->
  map sub_id rows = test_ids test /\
  (forall p, In p rows ->
     sub_prediction p = Some 1.2 \/ sub_prediction p = Some 0.8) /\
  (forall x, clip 0 2 (rule x) = rule x).
Proof.
  intros H. destruct (rule_predict_rows train test rows H) as [Hids Hval].
  split; [exact Hids|]. split; [|exact clip_rule].
  intros p Hp. destruct (Hval p Hp) as (x & ->).
  destruct (rule_values x) as [-> | ->]; [left|right]; reflexivity.
Qed.

Lemma rule_predict_values_witness :
  map sub_id [mkPrediction 7%Z (Some (clip 0 2 (rule (Some 0.01))));
              mkPrediction 8%Z (Some (clip 0 2 (rule None)))]
  = [7%Z; 8%Z].
Proof.
  apply (rule_predict_values [] (WithLag [(7%Z, Some 0.01); (8%Z, None)])).
  reflexivity.
Defined.

(** With the lagged column, a row is overweighted (1.2) exactly when its
    lagged return is a number above 0; a zero, a negative or a missing
    lagged return gives 0.8. *)
Theorem rule_overweight_iff (train : list (option R))
    (trows : list (ident * option R)) (rows : list PredictionRow) :
  rule_predict train (WithLag trows) = Some rows ->
  Forall2 (fun r p =>
             sub_id p = fst r /\
             (sub_prediction p = Some 1.2 <-> exists v, snd r = Some v /\ 0 < v) /\
             (sub_prediction p = Some 0.8 <-> ~ exists v, snd r = Some v /\ 0 < v))
          trows rows.
Proof.
  intros H. injection H as <-.
  induction trows as [|r trows IH]; simpl; constructor; [|exact IH].
  split; [reflexivity|]. simpl. rewrite clip_rule.
  destruct r as [i [v|]]; simpl.
  - destruct (Rlt_dec 0 v) as [Hv|Hv].
    + split; split.
      * intros _. exists v. split; [reflexivity|exact Hv].
      * reflexivity.
      * intros E. injection E as E. lra.
      * intros Hn. exfalso. apply Hn. exists v. split; [reflexivity|exact Hv].
    + split; split.
      * intros E. injection E as E. lra.
      * intros (w & E & Hw). injection E as <-. contradiction.
      * intros _ (w & E & Hw). injection E as <-. contradiction.
      * reflexivity.
  - split; split.
    + intros E. injection E as E. lra.
    + intros (w & E & _). discriminate E.
    + intros _ (w & E & _). discriminate E.
    + reflexivity.
Qed.

Lemma rule_overweight_iff_witness :
  Forall2 (fun r p =>
             sub_id p = fst r /\
             (sub_prediction p = Some 1.2 <-> exists v, snd r = Some v /\ 0 < v) /\
             (sub_prediction p = Some 0.8 <-> ~ exists v, snd r = Some v /\ 0 < v))
          [(7%Z, Some 0.01); (8%Z, None)]
          [mkPrediction 7%Z (Some (clip 0 2 (rule (Some 0.01))));
           mkPrediction 8%Z (Some (clip 0 2 (rule None)))].
Proof.
  apply (rule_overweight_iff [] [(7%Z, Some 0.01); (8%Z, None)]).
  reflexivity.
Defined.

(** Without the lagged column the script needs the last forward return of
    the training data: it ends in IndexError exactly when the training
    data have no row, and otherwise gives every test row the same
    prediction, decided by that last return alone. *)
Theorem rule_predict_without_lag (train : list (option R))
    (ids : list ident) :
  (rule_predict train (WithoutLag ids) = None <-> train = []) /\
  (forall earlier last_return,
     train = earlier ++ [last_return] ->
     rule_predict train (WithoutLag ids)
     = Some (map (fun i => mkPrediction i (Some (rule last_return))) ids)) /\
  (forall trows, rule_predict train (WithLag trows) <> None).
Proof.
  split; [|split].
  - unfold rule_predict. rewrite <- iloc_last_none_iff.
    destruct (iloc_last train); split; intros H; try discriminate H;
      reflexivity.
  - intros earlier last_return ->. unfold rule_predict.
    rewrite iloc_last_app. f_equal. apply map_ext. intros i.
    rewrite clip_rule. reflexivity.
  - intros trows. discriminate.
Qed.

Lemma rule_predict_without_lag_witness :
  rule_predict [Some (-0.01); Some 0.02] (WithoutLag [7%Z; 8%Z])
  = Some [mkPrediction 7%Z (Some (rule (Some 0.02)));
          mkPrediction 8%Z (Some (rule (Some 0.02)))].
Proof.
  apply (proj1 (proj2 (rule_predict_without_lag
                         [Some (-0.01); Some 0.02] [7%Z; 8%Z]))
               [Some (-0.01)] (Some 0.02)).
  reflexivity.
Defined.

(** ** Scoring the baseline *)

Lemma joined_prediction_origin solution rows j p :
  In j (merge_left solution rows) -> prediction j = Some p ->
  exists q, In q rows /\ sub_prediction q = Some p.
Proof.
  intros Hj Hp. apply in_merge_left in Hj. destruct Hj as (a & _ & Hj).
  apply in_joined_of in Hj. destruct Hj as [[_ ->]|(q & Hq & _ & ->)].
  - discriminate Hp.
  - exists q. split; [exact Hq|exact Hp].
Qed.

(** The rows of the baseline pass the metric's tests on predictions.  For
    any solution they are never reported out of bounds; and when every
    identifier of the solution is one of the test frame, no prediction is
    missing and, the column being numeric, the type test passes too. *)
Theorem rule_submission_accepted (train : list (option R))
    (test : TestFrame) (rows : list PredictionRow) :
  rule_predict train test = Some rows ->
  (forall solution numeric,
     compute_adjusted_sharpe solution (mkSubmission numeric rows)
       <> Raise OutOfBoundsError) /\
  (forall solution,
     (forall a, In a solution -> In (sol_id a) (test_ids test)) ->
     compute_adjusted_sharpe solution (mkSubmission true rows)
       <> Raise MissingPredictionError /\
     compute_adjusted_sharpe solution (mkSubmission true rows)
       <> Raise InvalidPredictionTypeError).
Proof.
  intros Hrule.
  destruct (rule_predict_rows train test rows Hrule) as [Hids Hval].
  split.
  - intros solution numeric H. unfold compute_adjusted_sharpe in H.
    simpl in H.
    destruct (periods (merge_left solution rows)) as [ps|] eqn:E.
    + rewrite (score_joined_some _ _ ps E) in H.
      destruct (negb numeric); [discriminate H|].
      destruct (gt_b _ 2 || lt_b _ 0) eqn:Eb.
      * apply bounds_test_iff in Eb. destruct Eb as (r & Hr & Hout).
        destruct (periods_positions _ _ E r Hr) as (j & Hj & Hp).
        destruct (joined_prediction_origin _ _ _ _ Hj Hp) as (q & Hq & Hq').
        destruct (Hval q Hq) as (x & Hx). rewrite Hx in Hq'.
        injection Hq' as Hq'. rewrite <- Hq' in Hout.
        destruct (rule_values x) as [Ex|Ex]; rewrite Ex in Hout; lra.
      * exact (score_periods_not_out_of_bounds ps H).
    + unfold score_joined in H. rewrite E in H. discriminate H.
  - intros solution Hcover.
    assert (compute_adjusted_sharpe solution (mkSubmission true rows)
            <> Raise MissingPredictionError) as Hmiss.
    { intros H. unfold compute_adjusted_sharpe in H. simpl in H.
      apply score_joined_missing_iff in H. apply merge_left_null_iff in H.
      destruct H as (a & Ha & [Hno|(q & Hq & _ & Hnull)]).
      - specialize (Hcover a Ha). rewrite <- Hids in Hcover.
        apply in_map_iff in Hcover. destruct Hcover as (q & Hid & Hq).
        exact (Hno q Hq Hid).
      - destruct (Hval q Hq) as (x & Hx). rewrite Hx in Hnull.
        discriminate Hnull. }
    split; [exact Hmiss|].
    intros H. unfold compute_adjusted_sharpe in H. simpl in H.
    destruct (periods (merge_left solution rows)) as [ps|] eqn:E.
    + rewrite (score_joined_some _ _ ps E) in H. simpl negb in H.
      cbv iota in H.
      destruct (gt_b _ 2 || lt_b _ 0); [discriminate H|].
      exact (score_periods_not_invalid_type ps H).
    + unfold score_joined in H. rewrite E in H. discriminate H.
Qed.

Lemma rule_submission_accepted_witness :
  compute_adjusted_sharpe
    [mkActual 7%Z 0.01 0.0001]
    (mkSubmission true
       [mkPrediction 7%Z (Some (clip 0 2 (rule (Some 0.01))));
        mkPrediction 8%Z (Some (clip 0 2 (rule None)))])
  <> Raise MissingPredictionError.
Proof.
  apply (rule_submission_accepted
           [] (WithLag [(7%Z, Some 0.01); (8%Z, None)])
           [mkPrediction 7%Z (Some (clip 0 2 (rule (Some 0.01))));
            mkPrediction 8%Z (Some (clip 0 2 (rule None)))]
           eq_refl).
  intros a [<-|[]]. left. reflexivity.
Defined.

(** * Missing values ([src/data_inspect_missing.py]) *)

(** A frame as [read_csv] returns it: a number of rows and named columns
    of that length, with distinct names; a NaN cell is [None]. *)
Record DataFrame : Type := mkFrame {
  len_df : nat;
  df_columns : list (string * list (option R))
}.

Definition rectangular (df : DataFrame) : Prop :=
  Forall (fun c => length (snd c) = len_df df) (df_columns df).

Definition isna (x : option R) : bool :=
  match x with
  | None => true
  | Some _ => false
  end.

(** [isna().sum()] of one column. *)
Definition isna_sum (col : list (option R)) : nat :=
  length (filter isna col).

(** Line 45: [df.isna().sum()], a count per column. *)
Definition missing_counts (df : DataFrame) : list (string * nat) :=
  map (fun c => (fst c, isna_sum (snd c))) (df_columns df).

(** Line 46, for one column: [(count / len(df)) * 100]. *)
Definition missing_percent (df : DataFrame) (count : nat) : R :=
  INR count / INR (len_df df) * 100.

(** Lines 47-50: the rows of [summary], a count and a percentage per
    column, before [sort_values] reorders them. *)
Definition missing_summary (df : DataFrame) : list (string * (nat * R)) :=
  map (fun c => (fst c, (snd c, missing_percent df (snd c))))
      (missing_counts df).

(** Line 54: [(missing_counts > 0).sum()]. *)
Definition columns_with_missing (df : DataFrame) : nat :=
  length (filter (fun c => Nat.ltb 0 (snd c)) (missing_counts df)).

(** The sum of two columns of counts, cell by cell. *)
Definition add_columns (a b : list nat) : list nat :=
  map (fun xy => (fst xy + snd xy)%nat) (combine a b).

(** Lines 65-66: [df.isna().sum(axis=1)], for each row the number of its
    cells that are NaN: the columns of the mask added up. *)
Definition missing_per_row (df : DataFrame) : list nat :=
  fold_right
    (fun c acc => add_columns (map (fun x => if isna x then 1%nat else 0%nat)
                                   (snd c)) acc)
    (repeat 0%nat (len_df df))
    (df_columns df).

(** Line 82: [c.startswith(prefix)]. *)
Definition startswith (c prefix : string) : bool := String.prefix prefix c.

Local Open Scope string_scope.

Definition prefixes : list string :=
  ["M"; "E"; "I"; "P"; "V"; "S"; "MOM"; "D"].

Local Close Scope string_scope.

(** Line 82: the columns of a group. *)
Definition group_columns (df : DataFrame) (prefix : string)
  : list (string * list (option R)) :=
  filter (fun c => startswith (fst c) prefix) (df_columns df).

(** Lines 84-86: the percentage of missing cells in a group of columns. *)
Definition group_percent (df : DataFrame)
    (cols : list (string * list (option R))) : R :=
  let missing := list_sum (map (fun c => isna_sum (snd c)) cols) in
  let total := (length cols * len_df df)%nat in
  INR missing / INR total * 100.

(** Lines 79-86: the dictionary [counts], in the order its keys are set;
    the function returns it sorted by value. *)
Definition group_missing_by_prefix (df : DataFrame) : list (string * R) :=
  flat_map
    (fun prefix =>
       match group_columns df prefix with
       | [] => []
       | cols => [(prefix, group_percent df cols)]
       end)
    prefixes.

(** ** Counting by column and by row *)

Definition indicator (col : list (option R)) : list nat :=
  map (fun x => if isna x then 1%nat else 0%nat) col.

Lemma indicator_length col : length (indicator col) = length col.
Proof. apply length_map. Qed.

Lemma indicator_sum col : list_sum (indicator col) = isna_sum col.
Proof.
  unfold indicator, isna_sum.
  induction col as [|x col IH]; [reflexivity|]. simpl.
  destruct (isna x); simpl; rewrite IH; reflexivity.
Qed.

Lemma indicator_le_1 col : Forall (fun k => (k <= 1)%nat) (indicator col).
Proof.
  unfold indicator. apply Forall_forall. intros k Hk.
  apply in_map_iff in Hk. destruct Hk as (x & <- & _).
  destruct (isna x); lia.
Qed.

Lemma add_columns_length a : forall b,
  length a = length b -> length (add_columns a b) = length a.
Proof.
  intros b H. unfold add_columns. rewrite length_map, length_combine.
  lia.
Qed.

Lemma add_columns_sum a : forall b,
  length a = length b ->
  list_sum (add_columns a b) = (list_sum a + list_sum b)%nat.
Proof.
  induction a as [|x a IH]; intros [|y b] H; try discriminate H;
    [reflexivity|].
  unfold add_columns in *. simpl. rewrite IH by (simpl in H; lia). lia.
Qed.

Lemma add_columns_bound a (m : nat) : forall b,
  Forall (fun k => (k <= 1)%nat) a -> Forall (fun k => (k <= m)%nat) b ->
  Forall (fun k => (k <= S m)%nat) (add_columns a b).
Proof.
  induction a as [|x a IH]; intros [|y b] Ha Hb; try constructor.
  - inversion Ha; inversion Hb; subst. simpl. lia.
  - inversion Ha; inversion Hb; subst. apply IH; assumption.
Qed.

Lemma list_sum_repeat_0 n : list_sum (repeat 0%nat n) = 0%nat.
Proof. induction n; [reflexivity|exact IHn]. Qed.

Lemma list_sum_zero_iff (l : list nat) :
  list_sum l = 0%nat <-> Forall (fun k => k = 0%nat) l.
Proof.
  induction l as [|k l IH]; simpl.
  - split; [constructor|reflexivity].
  - split.
    + intros H. constructor; [lia|apply IH; lia].
    + intros H. inversion H; subst. apply IH in H3. lia.
Qed.

Section PerRow.

Variable n : nat.

Definition per_row (cols : list (string * list (option R))) : list nat :=
  fold_right (fun c acc => add_columns (indicator (snd c)) acc)
             (repeat 0%nat n) cols.

Lemma per_row_length cols :
  Forall (fun c => length (snd c) = n) cols -> length (per_row cols) = n.
Proof.
  induction cols as [|c cols IH]; intros H; simpl.
  - apply repeat_length.
  - inversion H as [|c' cols' Hc Hcols]; subst c' cols'.
    rewrite add_columns_length; rewrite indicator_length; [exact Hc|].
    rewrite IH by exact Hcols. exact Hc.
Qed.

Lemma per_row_sum cols :
  Forall (fun c => length (snd c) = n) cols ->
  list_sum (per_row cols)
  = list_sum (map (fun c => isna_sum (snd c)) cols).
Proof.
  induction cols as [|c cols IH]; intros H; simpl.
  - apply list_sum_repeat_0.
  - inversion H as [|c' cols' Hc Hcols]; subst c' cols'.
    rewrite add_columns_sum
      by (rewrite indicator_length, per_row_length by exact Hcols;
          exact Hc).
    rewrite indicator_sum, IH by exact Hcols. reflexivity.
Qed.

Lemma per_row_bound cols :
  Forall (fun k => (k <= length cols)%nat) (per_row cols).
Proof.
  induction cols as [|c cols IH]; simpl.
  - apply Forall_forall. intros k Hk. apply repeat_spec in Hk. lia.
  - apply add_columns_bound; [apply indicator_le_1|exact IH].
Qed.

End PerRow.

Lemma missing_per_row_eq df :
  missing_per_row df = per_row (len_df df) (df_columns df).
Proof. reflexivity. Qed.

Lemma missing_counts_snd df :
  map snd (missing_counts df)
  = map (fun c => isna_sum (snd c)) (df_columns df).
Proof. unfold missing_counts. rewrite map_map. reflexivity. Qed.

(** The two views of the script agree.  On a frame whose columns all have
    [len(df)] cells there is one count per row, none larger than the number
    of columns; the counts per row add up to the same total as the counts
    per column; and no column has a missing value exactly when no row
    has. *)
Theorem missing_by_row_and_by_column (df : DataFrame) :
  rectangular df ->
  length (missing_per_row df) = len_df df /\
  Forall (fun k => (k <= length (df_columns df))%nat) (missing_per_row df) /\
  list_sum (missing_per_row df) = list_sum (map snd (missing_counts df)) /\
  (columns_with_missing df = 0%nat <->
   Forall (fun k => k = 0%nat) (missing_per_row df)).
Proof.
  intros Hrect. unfold rectangular in Hrect.
  rewrite missing_per_row_eq, missing_counts_snd.
  split; [apply per_row_length; exact Hrect|].
  split; [apply per_row_bound|].
  split; [apply per_row_sum; exact Hrect|].
  rewrite <- list_sum_zero_iff, per_row_sum by exact Hrect.
  rewrite <- missing_counts_snd, list_sum_zero_iff.
  unfold columns_with_missing.
  induction (missing_counts df) as [|c l IH]; simpl.
  - split; [constructor|reflexivity].
  - destruct (snd c) as [|k] eqn:E; simpl.
    + rewrite IH. split; [intros H; constructor; [reflexivity|exact H]|].
      intros H. inversion H; subst. assumption.
    + split; [discriminate|]. intros H. inversion H; subst. discriminate.
Qed.

Lemma missing_by_row_and_by_column_witness :
  list_sum (missing_per_row
              (mkFrame 2 [("M1"%string, [None; Some 1%R]);
                          ("E1"%string, [None; None])]))
  = list_sum (map snd (missing_counts
              (mkFrame 2 [("M1"%string, [None; Some 1%R]);
                          ("E1"%string, [None; None])]))).
Proof.
  apply (missing_by_row_and_by_column
           (mkFrame 2 [("M1"%string, [None; Some 1%R]);
                       ("E1"%string, [None; None])])).
  repeat constructor.
Defined.

(** ** Percentages *)

Lemma isna_sum_le col : (isna_sum col <= length col)%nat.
Proof. unfold isna_sum. apply filter_length_le. Qed.

Lemma percent_bounds (count total : nat) :
  (0 < total)%nat -> (count <= total)%nat ->
  0 <= INR count / INR total * 100 <= 100 /\
  (INR count / INR total * 100 = 0 <-> count = 0%nat) /\
  (INR count / INR total * 100 = 100 <-> count = total).
Proof.
  intros Ht Hle.
  assert (0 < INR total) as Ht' by (apply lt_0_INR; exact Ht).
  assert (0 <= INR count) as Hc by apply pos_INR.
  assert (INR count <= INR total) as Hle' by (apply le_INR; exact Hle).
  assert (INR count / INR total * 100 = INR count * (100 / INR total)) as ->
      by (field; lra).
  assert (0 < 100 / INR total) as Hk
      by (apply Rdiv_lt_0_compat; lra).
  assert (INR total * (100 / INR total) = 100) as Hfull by (field; lra).
  split; [split; nra|]. split; split; intros H.
  - apply INR_eq. simpl. nra.
  - rewrite H. simpl. lra.
  - apply INR_eq. nra.
  - rewrite H. exact Hfull.
Qed.

(** On a frame with at least one row whose columns all have [len(df)]
    cells, every line of the summary belongs to a column of the frame; its
    count is at most the number of rows and its percentage lies between 0
    and 100, is 0 exactly for a column without missing values and 100
    exactly for a column with nothing but missing values. *)
Theorem missing_summary_bounds (df : DataFrame) (name : string)
    (count : nat) (percent : R) :
  rectangular df -> (0 < len_df df)%nat ->
  In (name, (count, percent)) (missing_summary df) ->
  (exists col, In (name, col) (df_columns df) /\ count = isna_sum col) /\
  (count <= len_df df)%nat /\
  0 <= percent <= 100 /\
  (percent = 0 <-> count = 0%nat) /\
  (percent = 100 <-> count = len_df df).
Proof.
  intros Hrect Hn Hin. unfold missing_summary, missing_counts in Hin.
  rewrite map_map in Hin. apply in_map_iff in Hin.
  destruct Hin as ([cname col] & E & Hc). simpl in E.
  injection E as <- <- <-.
  assert (isna_sum col <= len_df df)%nat as Hle.
  { unfold rectangular in Hrect. rewrite Forall_forall in Hrect.
    rewrite <- (Hrect _ Hc). apply isna_sum_le. }
  split; [exists col; split; [exact Hc|reflexivity]|].
  split; [exact Hle|].
  unfold missing_percent. apply percent_bounds; assumption.
Qed.

Lemma missing_summary_bounds_witness :
  0 <= missing_percent (mkFrame 2 [("M1"%string, [None; Some 1])]) 1 <= 100.
Proof.
  apply (missing_summary_bounds
           (mkFrame 2 [("M1"%string, [None; Some 1])]) "M1"%string 1).
  - repeat constructor.
  - simpl. lia.
  - left. reflexivity.
Defined.

(** ** Groups of features *)

Lemma startswith_MOM_M (c : string) :
  startswith c "MOM" = true -> startswith c "M" = true.
Proof.
  unfold startswith. destruct c as [|a c]; cbn [String.prefix];
    [discriminate|].
  match goal with
  | |- context [Ascii.ascii_dec ?m a] => destruct (Ascii.ascii_dec m a)
  end; [|discriminate].
  intros _.
  destruct c; reflexivity.
Qed.

Lemma group_columns_incl df prefix :
  incl (group_columns df prefix) (df_columns df).
Proof. intros c Hc. unfold group_columns in Hc. apply filter_In in Hc. apply Hc. Qed.

Lemma group_columns_nonempty_iff df prefix :
  group_columns df prefix <> [] <->
  exists c, In c (df_columns df) /\ startswith (fst c) prefix = true.
Proof.
  unfold group_columns. split.
  - intros H. destruct (filter _ (df_columns df)) as [|c l] eqn:E;
      [contradiction|].
    exists c.
    apply (proj1 (filter_In (fun c => startswith (fst c) prefix) c
                            (df_columns df))).
    rewrite E. left. reflexivity.
  - intros (c & Hc) E.
    apply (proj2 (filter_In (fun c => startswith (fst c) prefix) c
                            (df_columns df))) in Hc.
    rewrite E in Hc. exact Hc.
Qed.

Lemma in_group_missing df prefix percent :
  In (prefix, percent) (group_missing_by_prefix df) <->
  In prefix prefixes /\ group_columns df prefix <> [] /\
  percent = group_percent df (group_columns df prefix).
Proof.
  unfold group_missing_by_prefix. rewrite in_flat_map. split.
  - intros (q & Hq & Hin).
    destruct (group_columns df q) as [|c l] eqn:E; [destruct Hin|].
    destruct Hin as [Heq|[]]. injection Heq as <- <-.
    split; [exact Hq|]. rewrite E. split; [discriminate|reflexivity].
  - intros (Hq & Hne & ->). exists prefix. split; [exact Hq|].
    destruct (group_columns df prefix); [contradiction|].
    left. reflexivity.
Qed.

(** A group is reported exactly when its prefix is one of the eight and
    some column name starts with it.  A column of the MOM group is also a
    column of the M group, so M is reported whenever MOM is. *)
Theorem group_missing_keys (df : DataFrame) :
  (forall prefix,
     (exists percent, In (prefix, percent) (group_missing_by_prefix df)) <->
     In prefix prefixes /\
     exists c, In c (df_columns df) /\ startswith (fst c) prefix = true) /\
  incl (group_columns df "MOM") (group_columns df "M") /\
  ((exists percent, In ("MOM"%string, percent) (group_missing_by_prefix df))
   -> exists percent, In ("M"%string, percent) (group_missing_by_prefix df)).
Proof.
  assert (forall prefix,
     (exists percent, In (prefix, percent) (group_missing_by_prefix df)) <->
     In prefix prefixes /\
     exists c, In c (df_columns df) /\ startswith (fst c) prefix = true)
    as Hkeys.
  { intros prefix. rewrite <- group_columns_nonempty_iff. split.
    - intros (percent & H). apply in_group_missing in H.
      destruct H as (Hq & Hne & _). split; assumption.
    - intros [Hq Hne]. exists (group_percent df (group_columns df prefix)).
      apply in_group_missing. split; [exact Hq|].
      split; [exact Hne|reflexivity]. }
  split; [exact Hkeys|]. split.
  - intros c Hc. unfold group_columns in *. apply filter_In in Hc.
    apply filter_In. split; [apply Hc|].
    apply startswith_MOM_M. apply Hc.
  - intros H. apply Hkeys in H. destruct H as (_ & c & Hc & Hs).
    apply Hkeys. split; [left; reflexivity|].
    exists c. split; [exact Hc|apply startswith_MOM_M; exact Hs].
Qed.

Lemma group_sum_le df cols :
  rectangular df -> incl cols (df_columns df) ->
  (list_sum (map (fun c => isna_sum (snd c)) cols)
   <= length cols * len_df df)%nat.
Proof.
  intros Hrect. unfold rectangular in Hrect. rewrite Forall_forall in Hrect.
  induction cols as [|c cols IH]; intros Hincl; simpl; [lia|].
  assert (isna_sum (snd c) <= len_df df)%nat as Hc.
  { rewrite <- (Hrect c (Hincl c (or_introl eq_refl))). apply isna_sum_le. }
  assert (incl cols (df_columns df)) as Hincl'
      by (intros x Hx; apply Hincl; right; exact Hx).
  specialize (IH Hincl'). lia.
Qed.

(** On a frame with at least one row whose columns all have [len(df)]
    cells, the percentage reported for a group lies between 0 and 100, and
    is 0 exactly when no cell of the group's columns is missing. *)
Theorem group_missing_bounds (df : DataFrame) (prefix : string)
    (percent : R) :
  rectangular df -> (0 < len_df df)%nat ->
  In (prefix, percent) (group_missing_by_prefix df) ->
  0 <= percent <= 100 /\
  (percent = 0 <->
   forall c, In c (group_columns df prefix) -> isna_sum (snd c) = 0%nat).
Proof.
  intros Hrect Hn Hin. apply in_group_missing in Hin.
  destruct Hin as (_ & Hne & ->). unfold group_percent. cbv zeta.
  set (cols := group_columns df prefix) in *.
  assert (0 < length cols * len_df df)%nat as Ht.
  { destruct cols; [contradiction|]. simpl. lia. }
  pose proof (group_sum_le df cols Hrect (group_columns_incl df prefix))
    as Hle.
  destruct (percent_bounds _ _ Ht Hle) as (Hb & Hz & _).
  split; [exact Hb|].
  rewrite Hz, list_sum_zero_iff, Forall_forall. split.
  - intros H c Hc. apply (H (isna_sum (snd c))).
    apply in_map_iff. exists c. split; [reflexivity|exact Hc].
  - intros H k Hk. apply in_map_iff in Hk. destruct Hk as (c & <- & Hc).
    apply H. exact Hc.
Qed.

Lemma group_missing_bounds_witness :
  0 <= group_percent (mkFrame 2 [("M1"%string, [None; Some 1])])
         [("M1"%string, [None; Some 1])] <= 100.
Proof.
  apply (group_missing_bounds
           (mkFrame 2 [("M1"%string, [None; Some 1])]) "M"%string).
  - repeat constructor.
  - simpl. lia.
  - left. reflexivity.
Defined.

Lemma group_missing_keys_witness :
  exists percent,
    In ("M"%string, percent)
       (group_missing_by_prefix
          (mkFrame 1 [("MOM1"%string, [None]); ("date_id"%string, [Some 1])])).
Proof.
  apply (proj2 (proj2 (group_missing_keys
    (mkFrame 1 [("MOM1"%string, [None]); ("date_id"%string, [Some 1])])))).
  exists (group_percent
            (mkFrame 1 [("MOM1"%string, [None]);
                        ("date_id"%string, [Some 1])])
            [("MOM1"%string, [None])]).
  apply in_group_missing. split.
  - right; right; right; right; right; right. left. reflexivity.
  - split; [discriminate|reflexivity].
Defined.

(** * More on the left merge *)

From Stdlib Require Import Permutation.

Lemma matching_unique a rows :
  NoDup (map sub_id rows) -> (length (matching a rows) <= 1)%nat.
Proof.
  induction rows as [|p rows IH]; intros Hnd; [simpl; lia|].
  simpl in Hnd. inversion Hnd as [|x l Hnotin Hnd']; subst x l.
  unfold matching. simpl.
  destruct (Z.eqb (sub_id p) (sol_id a)) eqn:E.
  - apply Z.eqb_eq in E.
    assert (matching a rows = []) as Hnil.
    { apply matching_nil_iff. intros q Hq Hid. apply Hnotin.
      rewrite E, <- Hid. apply in_map. exact Hq. }
    unfold matching in Hnil. rewrite Hnil. simpl. lia.
  - apply IH. exact Hnd'.
Qed.

Lemma Permutation_filter_pres {A : Type} (f : A -> bool) (l l' : list A) :
  Permutation l l' -> Permutation (filter f l) (filter f l').
Proof.
  induction 1 as [|x l l' _ IH|x y l|l l' l'' _ IH1 _ IH2]; simpl.
  - constructor.
  - destruct (f x); [constructor|]; exact IH.
  - destruct (f x); destruct (f y); try apply Permutation_refl.
    apply perm_swap.
  - exact (Permutation_trans IH1 IH2).
Qed.

(** Every row of the solution is scored: the joined set holds, for each
    solution row, at least one row with its identifier, forward return and
    risk-free rate, and holds no other rows. *)
Theorem merge_left_keeps_solution (solution : list ActualRow)
    (rows : list PredictionRow) :
  (forall a, In a solution ->
     exists j, In j (merge_left solution rows) /\
               row_id j = sol_id a /\
               forward_returns j = sol_forward_returns a /\
               risk_free_rate j = sol_risk_free_rate a) /\
  (forall j, In j (merge_left solution rows) ->
     exists a, In a solution /\
               row_id j = sol_id a /\
               forward_returns j = sol_forward_returns a /\
               risk_free_rate j = sol_risk_free_rate a).
Proof.
  split.
  - intros a Ha.
    destruct (matching a rows) as [|p ms] eqn:E.
    + exists (join_row a None). split; [|repeat split].
      apply in_merge_left. exists a. split; [exact Ha|].
      apply in_joined_of. left. split; [exact E|reflexivity].
    + exists (join_row a (sub_prediction p)). split; [|repeat split].
      apply in_merge_left. exists a. split; [exact Ha|].
      unfold joined_of. rewrite E. left. reflexivity.
  - intros j Hj. apply in_merge_left in Hj. destruct Hj as (a & Ha & Hj).
    exists a. split; [exact Ha|].
    apply in_joined_of in Hj.
    destruct Hj as [[_ ->]|(p & _ & _ & ->)]; repeat split.
Qed.

Lemma merge_left_keeps_solution_witness :
  exists j,
    In j (merge_left [mkActual 1%Z 0.01 0.0001] []) /\
    row_id j = 1%Z /\ forward_returns j = 0.01 /\ risk_free_rate j = 0.0001.
Proof.
  apply (proj1 (merge_left_keeps_solution [mkActual 1%Z 0.01 0.0001] [])
               (mkActual 1%Z 0.01 0.0001)).
  left. reflexivity.
Defined.

(** When no two rows of the submission share an identifier, the order of
    its rows does not matter: a reordered submission is merged into the
    same frame and gets the same outcome. *)
Theorem submission_order_irrelevant (solution : list ActualRow)
    (numeric : bool) (rows rows' : list PredictionRow) :
  NoDup (map sub_id rows) -> Permutation rows rows' ->
  merge_left solution rows' = merge_left solution rows /\
  compute_adjusted_sharpe solution (mkSubmission numeric rows')
    = compute_adjusted_sharpe solution (mkSubmission numeric rows).
Proof.
  intros Hnd Hperm.
  assert (merge_left solution rows' = merge_left solution rows) as H.
  { apply merge_left_matching_ext. intros a _.
    pose proof (matching_unique a rows Hnd) as Hlen.
    pose proof (Permutation_filter_pres
                  (fun p => Z.eqb (sub_id p) (sol_id a)) rows rows' Hperm)
      as Hp.
    fold (matching a rows) in Hp. fold (matching a rows') in Hp.
    destruct (matching a rows) as [|p [|q ms]].
    - apply Permutation_nil in Hp. exact Hp.
    - apply Permutation_length_1_inv in Hp. exact Hp.
    - simpl in Hlen. lia. }
  split; [exact H|].
  unfold compute_adjusted_sharpe. simpl. rewrite H. reflexivity.
Qed.

Lemma submission_order_irrelevant_witness :
  merge_left [mkActual 1%Z 0.01 0.0001]
             [mkPrediction 2%Z (Some 1); mkPrediction 1%Z (Some 0.5)]
  = merge_left [mkActual 1%Z 0.01 0.0001]
               [mkPrediction 1%Z (Some 0.5); mkPrediction 2%Z (Some 1)].
Proof.
  apply (submission_order_irrelevant
           [mkActual 1%Z 0.01 0.0001] true
           [mkPrediction 1%Z (Some 0.5); mkPrediction 2%Z (Some 1)]
           [mkPrediction 2%Z (Some 1); mkPrediction 1%Z (Some 0.5)]).
  - simpl. repeat constructor; simpl; intuition discriminate.
  - apply perm_swap.
Defined.
